(** * faultymalloc: a shallow embedding of [src/malloc.c]

    The library interposes [malloc], [calloc], [realloc], [strdup] and
    [strndup].  Every call site (return address) is failed once; the
    table of call sites lives in a shared anonymous mapping, so that it
    survives the repeated forks made by [run_tests].

    Conventions of the embedding.
    - Addresses and C integers are [Z]; [size_t] is the 64-bit unsigned
      type of an LP64 platform, and the only [size_t] arithmetic that can
      wrap (the checksum of [tests_complete]) is reduced modulo [2^64].
    - [record_count], [max_records] and loop indices are [nat]: the code
      only ever increments [record_count] below [max_records], so no
      wrap-around is possible there.
    - The flexible array [records[]] is a [list record] holding all the
      mapped slots; only the first [record_count] of them are live.
    - A process is a state transformer over [State]; [exit] is the [Halt]
      result.  The shared table is part of the state that survives a
      [Halt], as the mapping is [MAP_SHARED].
    - A target program is the tree of the intercepted calls it makes;
      each run ends.  [enable_core_dumps] only raises a resource limit and
      is left out. *)

From Stdlib Require Import ZArith Lia.
From stdpp Require Import base relations list.

Abbreviation ptr := Z.

Definition NULL : ptr := 0%Z.
Definition EXIT_SUCCESS : Z := 0%Z.
Definition EXIT_FAILURE : Z := 1%Z.

(** ** The coverage table *)

(** [struct Record] *)
Record record := { caller : ptr; status : Z }.

(** [struct Data] *)
Record Data := {
  record_count : nat;
  max_records : nat;
  records : list record
}.

Definition tested_failure : Z := 1%Z.
Definition tested_success : Z := 2%Z.

(** Result of a C function that may call [exit]. *)
Inductive result (A : Type) : Type :=
| Ok (a : A)
| Exit (code : Z).
Arguments Ok {A} a.
Arguments Exit {A} code.

(** The search loop of [lookup_caller]: index of the first live record
    whose [caller] is [ra], scanning upwards from index [i]. *)
Fixpoint find_caller (ra : ptr) (rs : list record) (i : nat) : option nat :=
  match rs with
  | [] => None
  | r :: rs' =>
      if (caller r =? ra)%Z then Some i else find_caller ra rs' (S i)
  end.

Definition live (d : Data) : list record :=
  take (record_count d) (records d).

(** [lookup_caller]: the index of the record is the embedding of the
    returned [struct Record *]. *)
Definition lookup_caller (ra : ptr) (d : Data) : result (nat * Data) :=
  match find_caller ra (live d) 0 with
  | Some i => Ok (i, d)
  | None =>
      if (max_records d <=? record_count d)%nat then Exit EXIT_FAILURE
      else
        Ok (record_count d,
            {| record_count := S (record_count d);
               max_records := max_records d;
               records :=
                 <[record_count d := {| caller := ra; status := 0 |}]>
                   (records d) |})
  end.

(** [rec->status] read and write through the record pointer. *)
Definition status_at (d : Data) (i : nat) : Z :=
  match records d !! i with
  | Some r => status r
  | None => 0%Z
  end.

Definition set_status (d : Data) (i : nat) (v : Z) : Data :=
  {| record_count := record_count d;
     max_records := max_records d;
     records :=
       match records d !! i with
       | Some r => <[i := {| caller := caller r; status := v |}]> (records d)
       | None => records d
       end |}.

Definition has_failed (r : record) : bool :=
  negb (Z.land (status r) tested_failure =? 0)%Z.
Definition has_succeeded (r : record) : bool :=
  negb (Z.land (status r) tested_success =? 0)%Z.

(** ** The real allocator *)

(** The five entry points resolved by [dlsym(RTLD_NEXT, _)], acting on
    an abstract heap [H] private to the calling process. *)
Class RealAllocator (H : Type) := {
  real_malloc : Z -> H -> ptr * H;
  real_calloc : Z -> Z -> H -> ptr * H;
  real_realloc : ptr -> Z -> H -> ptr * H;
  real_strdup : ptr -> H -> ptr * H;
  real_strndup : ptr -> Z -> H -> ptr * H
}.

(** An intercepted call with its arguments. *)
Inductive call :=
| Malloc (size : Z)
| Calloc (nmemb size : Z)
| Realloc (p : ptr) (size : Z)
| Strdup (s : ptr)
| Strndup (s : ptr) (n : Z).

(** Observation log.  It is not part of the C state: it records, for
    each wrapper invocation and in program order, the stores made to
    [rec->status] and the calls made to the real allocator, and the
    value handed back to the call site. *)
Inductive step :=
| Store (v : Z)
| Real (c : call) (r : ptr).

Record invocation := {
  inv_site : ptr;
  inv_steps : list step;
  inv_ret : ptr
}.

Section Wrappers.
Context {H : Type} {RA : RealAllocator H}.

Record State := {
  data : Data;
  heap : H;
  trace : list invocation
}.

Inductive Res (A : Type) : Type :=
| Val (a : A) (s : State)
| Halt (code : Z) (s : State).
Arguments Val {A} a s.
Arguments Halt {A} code s.

(** The body shared by the five wrappers, which differ only in the real
    entry point called on the last line ([real]) and its arguments:
    [[
    struct Record *rec = lookup_caller(caller);
    if ((rec->status & tested_failure) == 0) {
        rec->status |= tested_failure;
        return NULL;
    } else {
        rec->status |= tested_success;
        return real_xxx(args);
    }
    ]] *)
Definition intercept (c : call) (real : H -> ptr * H)
    (ra : ptr) (st : State) : Res ptr :=
  match lookup_caller ra (data st) with
  | Exit code => Halt code st
  | Ok (i, d) =>
      let s := status_at d i in
      if (Z.land s tested_failure =? 0)%Z then
        let v := Z.lor s tested_failure in
        Val NULL {| data := set_status d i v; heap := heap st;
                    trace := trace st ++ [{| inv_site := ra;
                                             inv_steps := [Store v];
                                             inv_ret := NULL |}] |}
      else
        let v := Z.lor s tested_success in
        let '(p, h) := real (heap st) in
        Val p {| data := set_status d i v; heap := h;
                 trace := trace st ++ [{| inv_site := ra;
                                          inv_steps := [Store v; Real c p];
                                          inv_ret := p |}] |}
  end.

Definition malloc (size : Z) : ptr -> State -> Res ptr :=
  intercept (Malloc size) (real_malloc size).
Definition calloc (nmemb size : Z) : ptr -> State -> Res ptr :=
  intercept (Calloc nmemb size) (real_calloc nmemb size).
Definition realloc (p : ptr) (size : Z) : ptr -> State -> Res ptr :=
  intercept (Realloc p size) (real_realloc p size).
Definition strdup (s : ptr) : ptr -> State -> Res ptr :=
  intercept (Strdup s) (real_strdup s).
Definition strndup (s : ptr) (n : Z) : ptr -> State -> Res ptr :=
  intercept (Strndup s n) (real_strndup s n).

(** What the real entry point behind a call does. *)
Definition real_of (c : call) : H -> ptr * H :=
  match c with
  | Malloc size => real_malloc size
  | Calloc nmemb size => real_calloc nmemb size
  | Realloc p size => real_realloc p size
  | Strdup s => real_strdup s
  | Strndup s n => real_strndup s n
  end.

(** Dispatch of a call made by the target program to its wrapper. *)
Definition invoke (c : call) : ptr -> State -> Res ptr :=
  match c with
  | Malloc size => malloc size
  | Calloc nmemb size => calloc nmemb size
  | Realloc p size => realloc p size
  | Strdup s => strdup s
  | Strndup s n => strndup s n
  end.

(** ** The target program and one run of it *)

(** Termination status of a child as classified by the [wait] macros:
    [WIFEXITED]/[WEXITSTATUS], [WIFSIGNALED]/[WTERMSIG], or neither. *)
Inductive wstatus :=
| WExited (code : Z)
| WSignaled (sig : Z)
| WOther (raw : Z).

(** A target program, seen from the interposition layer: it ends, or it
    makes an intercepted call from return address [ra] and goes on with
    the pointer it gets back. *)
Inductive program :=
| Terminate (w : wstatus)
| Alloc (c : call) (ra : ptr) (k : ptr -> program).

(** The child of [fork]: it returns from [run_tests] and [init] and the
    program runs with every allocation going through the wrappers. An
    [exit] inside [lookup_caller] ends the child with that status. *)
Fixpoint execute (p : program) (st : State) : wstatus * State :=
  match p with
  | Terminate w => (w, st)
  | Alloc c ra k =>
      match invoke c ra st with
      | Val r st' => execute (k r) st'
      | Halt code st' => (WExited code, st')
      end
  end.

(** ** Convergence detection *)

Definition size_t_modulus : Z := (2 ^ 64)%Z.
Definition to_size_t (z : Z) : Z := (z mod size_t_modulus)%Z.

(** The function-local statics of [tests_complete]. *)
Record tc_static := {
  last_record_count : nat;
  last_checksum : Z
}.

(** One iteration of the [for] loop of [tests_complete], on the pair
    ([done], [checksum]). *)
Definition tc_body (acc : Z * Z) (r : record) : Z * Z :=
  let '(done, checksum) := acc in
  let done := Z.land done (Z.land (status r) tested_failure) in
  let done := Z.land done (Z.land (status r) tested_success) in
  (done, to_size_t (checksum * 37 + to_size_t (status r))).

Definition tc_loop (d : Data) : Z * Z :=
  fold_left tc_body (live d) (1%Z, 0%Z).

Definition tests_complete (s : tc_static) (d : Data) : Z * tc_static :=
  let '(done, checksum) := tc_loop d in
  let done :=
    if (last_record_count s =? record_count d)%nat
       && (last_checksum s =? checksum)%Z
    then 1%Z else done in
  (done, {| last_record_count := record_count d;
            last_checksum := checksum |}).

(** ** The driver loop *)

Inductive path := Core | CoreRun (n : nat).

(** What the parent writes to stderr and does to the file system. *)
Inductive output :=
| MsgRun (n : nat)
| Unlink (p : path)
| Link (src dst : path)
| MsgForkFailed
| MsgNewline
| MsgSignaled (n : nat) (sig : Z)
| MsgExited (n : nat) (code : Z)
| MsgUnexpected (raw : Z)
| MsgTested (n : nat)
| MsgHeader
| MsgRow (site : ptr) (success failure : bool).

(** What [fork] does on a given iteration: it fails, or it yields a
    child whose private heap is [h] and which behaves as [p]. *)
Inductive run_spec :=
| ForkFails
| Child (p : program) (h : H).

(** The environment of a campaign: the behaviour of each run, by
    1-based run index. *)
Definition world := nat -> run_spec.

(** State of the parent across iterations of the [do ... while]. *)
Record driver := {
  run_count : nat;
  statics : tc_static;
  shared : Data;
  observed : list invocation;
  out : list output
}.

Inductive iteration :=
| Abort (s : driver)
| Again (s : driver)
| Complete (s : driver).

(** The body of the [do ... while] together with its condition. *)
Definition run_once (w : world) (s : driver) : iteration :=
  let n := S (run_count s) in
  let o := out s ++ [MsgRun n; Unlink Core] in
  match w n with
  | ForkFails =>
      Abort {| run_count := n; statics := statics s; shared := shared s;
               observed := observed s; out := o ++ [MsgForkFailed] |}
  | Child p h =>
      let '(ws, st) :=
        execute p {| data := shared s; heap := h; trace := observed s |} in
      let evaluate msgs :=
        let '(done, tc) := tests_complete (statics s) (data st) in
        let s' := {| run_count := n; statics := tc; shared := data st;
                     observed := trace st;
                     out := o ++ MsgNewline :: msgs |} in
        if (done =? 0)%Z then Again s' else Complete s' in
      match ws with
      | WSignaled sig =>
          evaluate [MsgSignaled n sig; Link Core (CoreRun n); Unlink Core]
      | WExited code => evaluate [MsgExited n code]
      | WOther raw =>
          Abort {| run_count := n; statics := statics s;
                   shared := data st; observed := trace st;
                   out := o ++ [MsgNewline; MsgUnexpected raw] |}
      end
  end.

(** The report printed after the loop. *)
Definition report_row (r : record) : output :=
  MsgRow (caller r)
         (negb (Z.land (status r) tested_success =? 0)%Z)
         (negb (Z.land (status r) tested_failure =? 0)%Z).

Definition report (d : Data) : list output :=
  MsgTested (record_count d) :: MsgHeader :: map report_row (live d).

(** How far a campaign got: the parent has called [exit], or the loop
    is still going when the iteration budget runs out. *)
Inductive campaign :=
| Exited (code : Z) (s : driver)
| StillRunning (s : driver).

Fixpoint run_loop (fuel : nat) (w : world) (s : driver) : campaign :=
  match fuel with
  | O => StillRunning s
  | S fuel' =>
      match run_once w s with
      | Abort s' => Exited EXIT_FAILURE s'
      | Again s' => run_loop fuel' w s'
      | Complete s' =>
          Exited EXIT_SUCCESS
            {| run_count := run_count s'; statics := statics s';
               shared := shared s'; observed := observed s';
               out := out s' ++ report (shared s') |}
      end
  end.

(** The parent on entry to [run_tests], with the table [d] and the
    statics of [tests_complete] at their initial value. *)
Definition start (d : Data) : driver :=
  {| run_count := 0;
     statics := {| last_record_count := 0; last_checksum := 0 |};
     shared := d; observed := []; out := [] |}.

(** [run_tests], for at most [fuel] iterations of its loop. *)
Definition run_tests (fuel : nat) (w : world) (d : Data) : campaign :=
  run_loop fuel w (start d).

(** ** Set-up *)

(** The addresses returned by the five [dlsym] calls. *)
Record symbols := {
  sym_malloc : ptr;
  sym_calloc : ptr;
  sym_realloc : ptr;
  sym_strdup : ptr;
  sym_strndup : ptr
}.

(** [mmap] returns [MAP_FAILED], which is [(void * ) -1], on error. *)
Definition MAP_FAILED : ptr := (size_t_modulus - 1)%Z.

(** The table after [memset], [record_count = 0], [max_records = 1024]. *)
Definition fresh_table : Data :=
  {| record_count := 0; max_records := 1024;
     records := replicate 1024 {| caller := NULL; status := 0 |} |}.

Inductive init_result :=
| InitExit (code : Z)
| InitFault
| InitRun (c : campaign).

(** [init]: [syms] are the results of [dlsym], [mapped] the result of
    [mmap].  Writing through [MAP_FAILED] in [memset] faults. *)
Definition init (syms : symbols) (mapped : ptr)
    (fuel : nat) (w : world) : init_result :=
  if (sym_malloc syms =? NULL)%Z
     || (sym_calloc syms =? NULL)%Z
     || (sym_realloc syms =? NULL)%Z
  then InitExit EXIT_FAILURE
  else if (mapped =? NULL)%Z then InitExit EXIT_FAILURE
  else if (mapped =? MAP_FAILED)%Z then InitFault
  else InitRun (run_tests fuel w fresh_table).

End Wrappers.

Arguments State : clear implicits.
Arguments Res : clear implicits.
Arguments run_spec : clear implicits.
Arguments world : clear implicits.
Arguments Val {H A} a s.
Arguments Halt {H A} code s.

(** * Specification vocabulary *)

(** The call sites with a live record, in order of first observation. *)
Definition callers (d : Data) : list Z := caller <$> live d.

(** The live records fit in the capacity, and the capacity fits in the
    mapped array. *)
Definition wf (d : Data) : Prop :=
  record_count d <= max_records d /\ max_records d <= length (records d).

(** What [lookup_caller] does on a well-formed table. *)
Inductive lookup_spec (ra : Z) (d : Data) : result (nat * Data) -> Prop :=
| lookup_found i r :
    live d !! i = Some r -> caller r = ra ->
    ra ∉ (caller <$> take i (live d)) ->
    lookup_spec ra d (Ok (i, d))
| lookup_fresh d' :
    ra ∉ callers d -> record_count d < max_records d ->
    record_count d' = S (record_count d) ->
    max_records d' = max_records d ->
    live d' = live d ++ [{| caller := ra; status := 0 |}] ->
    wf d' ->
    lookup_spec ra d (Ok (record_count d, d'))
| lookup_full :
    ra ∉ callers d -> max_records d <= record_count d ->
    lookup_spec ra d (Exit EXIT_FAILURE).

(** A record only gains flags; a table only gains records. *)
Definition record_le (r r' : record) : Prop :=
  caller r' = caller r /\
  (has_failed r = true -> has_failed r' = true) /\
  (has_succeeded r = true -> has_succeeded r' = true).

Definition table_le (d d' : Data) : Prop :=
  max_records d' = max_records d /\
  record_count d <= record_count d' /\
  forall i r, live d !! i = Some r ->
    exists r', live d' !! i = Some r' /\ record_le r r'.

Definition unique_sites (d : Data) : Prop := NoDup (callers d).

(** Number of flags set in the live records: the quantity that every
    change to the table increases. *)
Definition weight (r : record) : nat :=
  Nat.b2n (has_failed r) + Nat.b2n (has_succeeded r).

Definition coverage (d : Data) : nat := sum_list_with weight (live d).

(** Full coverage: every live record has both flags. *)
Definition full_coverage (d : Data) : Prop :=
  forall r, r ∈ live d -> has_failed r = true /\ has_succeeded r = true.

(** Invocations observed at a call site, oldest first. *)
Definition at_site (ra : Z) (t : list invocation) : list invocation :=
  filter (fun iv => inv_site iv = ra) t.

Definition is_real (s : step) : bool :=
  match s with Real _ _ => true | Store _ => false end.

(** The invocation was answered without entering the real allocator. *)
Definition forced (iv : invocation) : bool :=
  forallb (fun s => negb (is_real s)) (inv_steps iv).

(** The invocation stored a status, then called the real allocator, and
    returned what the real allocator returned. *)
Definition delegated (iv : invocation) : Prop :=
  exists v c, inv_steps iv = [Store v; Real c (inv_ret iv)].

(** The history of a site with a record: one forced failure, then only
    delegated invocations. *)
Definition served_once (ra : Z) (t : list invocation) : Prop :=
  exists first rest,
    at_site ra t = first :: rest /\
    forced first = true /\ inv_ret first = NULL /\
    Forall delegated rest.

(** Between two invocations: every live record has its failure flag, a
    site without a record was never served, a site with a record was
    served as above. *)
Definition site_inv (d : Data) (t : list invocation) : Prop :=
  Forall (fun r => has_failed r = true) (live d) /\
  (forall ra, ra ∉ callers d -> at_site ra t = []) /\
  (forall ra, ra ∈ callers d -> served_once ra t).

(** Number of invocations at a site answered without the real
    allocator. *)
Definition forced_count (ra : Z) (t : list invocation) : nat :=
  length (filter (fun iv => forced iv = true) (at_site ra t)).

(** Number of invocations at a site that returned the null pointer. *)
Definition null_returns (ra : Z) (t : list invocation) : nat :=
  length (filter (fun iv => inv_ret iv = NULL) (at_site ra t)).

Section Vocabulary.
Context {H : Type} {RA : RealAllocator H}.

(** The four ways a wrapper invocation can go on a well-formed table:
    the table is full and the site unknown; the site is new; the site is
    known and not yet failed; the site is known and already failed. *)
Inductive intercept_spec (c : call) (real : H -> Z * H) (ra : Z)
    (st : State H) : Res H Z -> Prop :=
| spec_full :
    ra ∉ callers (data st) ->
    max_records (data st) <= record_count (data st) ->
    intercept_spec c real ra st (Halt EXIT_FAILURE st)
| spec_fresh st' :
    ra ∉ callers (data st) ->
    record_count (data st) < max_records (data st) ->
    live (data st') =
      live (data st) ++ [{| caller := ra; status := tested_failure |}] ->
    record_count (data st') = S (record_count (data st)) ->
    max_records (data st') = max_records (data st) ->
    wf (data st') ->
    heap st' = heap st ->
    trace st' = trace st ++ [{| inv_site := ra;
                                inv_steps := [Store tested_failure];
                                inv_ret := NULL |}] ->
    intercept_spec c real ra st (Val NULL st')
| spec_first i r st' :
    live (data st) !! i = Some r -> caller r = ra ->
    ra ∉ (caller <$> take i (live (data st))) ->
    has_failed r = false ->
    live (data st') =
      <[i := {| caller := ra;
                status := Z.lor (status r) tested_failure |}]>
        (live (data st)) ->
    record_count (data st') = record_count (data st) ->
    max_records (data st') = max_records (data st) ->
    wf (data st') ->
    heap st' = heap st ->
    trace st' = trace st ++
      [{| inv_site := ra;
          inv_steps := [Store (Z.lor (status r) tested_failure)];
          inv_ret := NULL |}] ->
    intercept_spec c real ra st (Val NULL st')
| spec_again i r st' p h :
    live (data st) !! i = Some r -> caller r = ra ->
    ra ∉ (caller <$> take i (live (data st))) ->
    has_failed r = true ->
    real (heap st) = (p, h) ->
    live (data st') =
      <[i := {| caller := ra;
                status := Z.lor (status r) tested_success |}]>
        (live (data st)) ->
    record_count (data st') = record_count (data st) ->
    max_records (data st') = max_records (data st) ->
    wf (data st') ->
    heap st' = h ->
    trace st' = trace st ++
      [{| inv_site := ra;
          inv_steps := [Store (Z.lor (status r) tested_success);
                        Real c p];
          inv_ret := p |}] ->
    intercept_spec c real ra st (Val p st').

Definition state_of {A} (res : Res H A) : State H :=
  match res with Val _ s => s | Halt _ s => s end.

(** One wrapper invocation, as a move of the shared table and of the
    observation log. *)
Inductive moves : relation (Data * list invocation) :=
| moves_invoke c ra st :
    wf (data st) ->
    moves (data st, trace st)
          (data (state_of (invoke c ra st)),
           trace (state_of (invoke c ra st))).

(** The parent's state an iteration ends in, and the state a campaign
    has reached. *)
Definition driver_of (it : iteration) : driver :=
  match it with Abort s | Again s | Complete s => s end.

Definition final (c : campaign) : driver :=
  match c with Exited _ s | StillRunning s => s end.

Definition exit_code (c : campaign) : option Z :=
  match c with Exited code _ => Some code | StillRunning _ => None end.

(** Lines of the form "Run n exited with status c". *)
Definition is_exit_report (o : output) : bool :=
  match o with MsgExited _ _ => true | _ => false end.

(** The loop goes round again after this iteration. *)
Definition loops (it : iteration) : bool :=
  match it with Again _ => true | _ => false end.

(** The digest computed by [tests_complete]. *)
Definition checksum (d : Data) : Z := snd (tc_loop d).

(** The statics of [tests_complete] describe the table [d]. *)
Definition remembers (s : tc_static) (d : Data) : Prop :=
  last_record_count s = record_count d /\ last_checksum s = checksum d.

(** No run of the campaign fails to fork or ends unclassified. *)
Definition classifiable (w : world H) : Prop :=
  forall n, match w n with
            | ForkFails => False
            | Child p h =>
                forall st, match fst (execute p st) with
                           | WOther _ => False
                           | _ => True
                           end
            end.

End Vocabulary.

(** ** Vocabulary for the further properties *)

(** The status values of the live records, in table order. *)
Definition statuses (d : Data) : list Z := status <$> live d.

(** The checksum loop of [tests_complete] on a list of status values. *)
Definition digest (l : list Z) : Z :=
  fold_left (fun c s => to_size_t (c * 37 + to_size_t s)) l 0%Z.

(** The number a list of status values spells in base 37. *)
Definition base37 (l : list Z) : Z :=
  fold_left (fun c s => (c * 37 + s)%Z) l 0%Z.

(** Destinations of the [link] calls, and run indices of the
    "terminated with signal" lines, in a parent's output. *)
Definition link_target (o : output) : option path :=
  match o with Link _ dst => Some dst | _ => None end.

Definition archives (l : list output) : list path := omap link_target l.

Definition signaled_run (o : output) : option nat :=
  match o with MsgSignaled n _ => Some n | _ => None end.

Definition signaled_runs (l : list output) : list nat :=
  omap signaled_run l.

(** The parent between two iterations of a campaign: the table is well
    formed, the statics of [tests_complete] describe it, and every live
    record has status 1 or 3. *)
Definition settled (s : driver) : Prop :=
  wf (shared s) /\ remembers (statics s) (shared s) /\
  Forall (fun r => status r = 1%Z \/ status r = 3%Z) (live (shared s)).

(** The row of the report for a record of a campaign. *)
Definition campaign_row (r : record) : output :=
  MsgRow (caller r) (status r =? 3)%Z true.

(** * A concrete allocator and sample targets

    Used to evaluate the model on concrete campaigns. *)

Definition arena_base : Z := 4096%Z.
Definition arena_size : Z := 65536%Z.

(** A bump allocator: the heap is the number of bytes handed out, and a
    request that does not fit in the arena gets the null pointer. *)
Definition bump (size : Z) (used : Z) : Z * Z :=
  if ((0 <=? size) && (used + size <=? arena_size))%Z
  then ((arena_base + used)%Z, (used + size)%Z)
  else (NULL, used).

#[export] Instance arena : RealAllocator Z := {|
  real_malloc size := bump size;
  real_calloc nmemb size := bump (nmemb * size);
  real_realloc p size := bump size;
  real_strdup s := bump 1;
  real_strndup s n := bump (n + 1)
|}.

(** The table of [init] once the site [100] has been failed, and once
    it has also been served. *)
Definition failed_table : Data :=
  {| record_count := 1; max_records := 1024;
     records := {| caller := 100; status := 1 |}
                :: replicate 1023 {| caller := NULL; status := 0 |} |}.

Definition covered_table : Data :=
  {| record_count := 1; max_records := 1024;
     records := {| caller := 100; status := 3 |}
                :: replicate 1023 {| caller := NULL; status := 0 |} |}.

(** A table with a single slot, taken by the site [100]. *)
Definition packed_table : Data :=
  {| record_count := 1; max_records := 1;
     records := [{| caller := 100; status := 1 |}] |}.

Definition process (d : Data) : State Z :=
  {| data := d; heap := 0%Z; trace := [] |}.

(** One call site; the program gives up with status 2 when the
    allocation fails. *)
Definition single_site : program :=
  Alloc (Malloc 16) 100
    (fun p => if (p =? NULL)%Z then Terminate (WExited 2)
              else Terminate (WExited 0)).

(** One call site asking for more than the arena holds. *)
Definition greedy : program :=
  Alloc (Malloc 1048576) 200
    (fun p => if (p =? NULL)%Z then Terminate (WExited 2)
              else Terminate (WExited 0)).

(** [n] call sites [ra], [ra + 1], ... visited in turn, whatever the
    allocations return. *)
Fixpoint crowd (n : nat) (ra : Z) : program :=
  match n with
  | O => Terminate (WExited 0)
  | S n' => Alloc (Malloc 1) ra (fun _ => crowd n' (ra + 1))
  end.

(** The campaign in which every run behaves as [p]. *)
Definition every (p : program) : world Z := fun _ => Child p 0%Z.

(** * Properties *)

(** ** Flag arithmetic *)

Lemma land_bit (s : Z) (n : Z) :
  (0 <= n)%Z ->
  Z.land s (2 ^ n) = if Z.testbit s n then (2 ^ n)%Z else 0%Z.
Proof.
  intros Hn. apply Z.bits_inj'. intros m Hm.
  rewrite Z.land_spec, Z.pow2_bits_eqb by lia.
  destruct (Z.eqb_spec n m) as [->|Hne].
  - destruct (Z.testbit s m); simpl.
    + rewrite Z.pow2_bits_true; auto.
    + rewrite Z.bits_0; auto.
  - rewrite andb_false_r.
    destruct (Z.testbit s n).
    + rewrite Z.pow2_bits_false; auto.
    + rewrite Z.bits_0; auto.
Qed.

Lemma has_failed_testbit r : has_failed r = Z.testbit (status r) 0.
Proof.
  unfold has_failed, tested_failure.
  change 1%Z with (2 ^ 0)%Z. rewrite land_bit by lia.
  destruct (Z.testbit (status r) 0); reflexivity.
Qed.

Lemma has_succeeded_testbit r : has_succeeded r = Z.testbit (status r) 1.
Proof.
  unfold has_succeeded, tested_success.
  change 2%Z with (2 ^ 1)%Z. rewrite land_bit by lia.
  destruct (Z.testbit (status r) 1); reflexivity.
Qed.

Lemma lor_bit (s : Z) (n m : Z) :
  (0 <= n)%Z -> (0 <= m)%Z ->
  Z.testbit (Z.lor s (2 ^ n)) m = Z.testbit s m || (n =? m)%Z.
Proof.
  intros Hn Hm. rewrite Z.lor_spec, Z.pow2_bits_eqb by lia. reflexivity.
Qed.

Lemma lor_bit_id (s : Z) (n : Z) :
  (0 <= n)%Z -> Z.testbit s n = true -> Z.lor s (2 ^ n) = s.
Proof.
  intros Hn Hs. apply Z.bits_inj'. intros m Hm.
  rewrite lor_bit by lia.
  destruct (Z.eqb_spec n m) as [->|Hne].
  - rewrite Hs. reflexivity.
  - apply orb_false_r.
Qed.

(** Setting the failure flag: the record becomes failed, its success
    flag is untouched; and symmetrically. *)
Lemma flags_set_failure r r' :
  status r' = Z.lor (status r) tested_failure ->
  has_failed r' = true /\ has_succeeded r' = has_succeeded r.
Proof.
  intros Hs. rewrite has_failed_testbit, !has_succeeded_testbit, Hs.
  change tested_failure with (2 ^ 0)%Z.
  rewrite !lor_bit by lia. split.
  - apply orb_true_r.
  - apply orb_false_r.
Qed.

Lemma flags_set_success r r' :
  status r' = Z.lor (status r) tested_success ->
  has_succeeded r' = true /\ has_failed r' = has_failed r.
Proof.
  intros Hs. rewrite has_succeeded_testbit, !has_failed_testbit, Hs.
  change tested_success with (2 ^ 1)%Z.
  rewrite !lor_bit by lia. split.
  - apply orb_true_r.
  - apply orb_false_r.
Qed.

Lemma set_success_id r :
  has_succeeded r = true ->
  {| caller := caller r; status := Z.lor (status r) tested_success |} = r.
Proof.
  rewrite has_succeeded_testbit. intros Hs.
  change tested_success with (2 ^ 1)%Z.
  rewrite lor_bit_id by (lia || done). by destruct r.
Qed.

(** ** The search loop *)


Lemma find_caller_None ra rs i :
  find_caller ra rs i = None <-> ra ∉ (caller <$> rs).
Proof.
  revert i. induction rs as [|r rs IH]; intros i; simpl.
  - split; [intros _; apply not_elem_of_nil | reflexivity].
  - rewrite not_elem_of_cons.
    destruct (Z.eqb_spec (caller r) ra) as [Heq|Hne].
    + split; [discriminate | intros [Hne _]; by destruct Hne].
    + rewrite IH. split; [intros Hn; split; [congruence | done] | tauto].
Qed.

Lemma find_caller_Some ra rs i j :
  find_caller ra rs i = Some j ->
  exists k r, j = i + k /\ rs !! k = Some r /\ caller r = ra /\
    ra ∉ (caller <$> take k rs).
Proof.
  revert i. induction rs as [|r rs IH]; intros i; simpl; [discriminate|].
  destruct (Z.eqb_spec (caller r) ra) as [Heq|Hne].
  - intros [= <-]. exists 0, r. simpl.
    repeat split; [lia | assumption | apply not_elem_of_nil].
  - intros Hf. destruct (IH _ Hf) as (k & r' & -> & Hk & Hc & Hn).
    exists (S k), r'. simpl. repeat split; [lia | assumption ..|].
    rewrite not_elem_of_cons. split; [congruence | exact Hn].
Qed.

(** ** Well-formed tables *)


Lemma live_length d : wf d -> length (live d) = record_count d.
Proof. intros [? ?]. unfold live. rewrite length_take. lia. Qed.

Lemma live_lookup d i :
  i < record_count d -> live d !! i = records d !! i.
Proof. intros Hi. unfold live. by rewrite lookup_take_lt. Qed.

Lemma live_lookup_Some d i r :
  live d !! i = Some r -> i < record_count d /\ records d !! i = Some r.
Proof.
  unfold live. rewrite lookup_take_Some. tauto.
Qed.

Lemma set_status_live d i r v :
  live d !! i = Some r ->
  live (set_status d i v) = <[i := {| caller := caller r; status := v |}]> (live d).
Proof.
  intros Hl. destruct (live_lookup_Some _ _ _ Hl) as [Hi Hr].
  unfold live, set_status. simpl. rewrite Hr.
  by rewrite take_insert_lt.
Qed.

Lemma set_status_wf d i v : wf d -> wf (set_status d i v).
Proof.
  unfold wf, set_status. simpl.
  destruct (records d !! i); [rewrite length_insert|]; tauto.
Qed.


Lemma lookup_caller_spec ra d :
  wf d -> lookup_spec ra d (lookup_caller ra d).
Proof.
  intros Hwf. pose proof Hwf as [Hle Hlen]. unfold lookup_caller.
  destruct (find_caller ra (live d) 0) as [i|] eqn:Hf.
  - apply find_caller_Some in Hf as (k & r & -> & Hk & Hc & Hn).
    simpl. by eapply lookup_found.
  - apply find_caller_None in Hf.
    destruct (Nat.leb_spec (max_records d) (record_count d)) as [Hfull|Hroom].
    + by apply lookup_full.
    + apply lookup_fresh; simpl; try done.
      * unfold live. simpl.
        erewrite take_S_r by (apply list_lookup_insert_eq; lia).
        f_equal. apply take_insert_ge. lia.
      * unfold wf. simpl. rewrite length_insert. lia.
Qed.

Lemma status_at_live d i r : live d !! i = Some r -> status_at d i = status r.
Proof.
  intros Hl. apply live_lookup_Some in Hl as [_ Hr].
  unfold status_at. by rewrite Hr.
Qed.

Lemma set_status_count d i v :
  record_count (set_status d i v) = record_count d /\
  max_records (set_status d i v) = max_records d.
Proof. split; reflexivity. Qed.

Section Interception.
Context {H : Type} {RA : RealAllocator H}.


Lemma intercept_correct c real ra (st : State H) :
  wf (data st) -> intercept_spec c real ra st (intercept c real ra st).
Proof.
  intros Hwf. unfold intercept.
  destruct (lookup_caller_spec ra (data st) Hwf)
    as [i r Hi Hc Hfirst | d' Hnew Hroom Hcount Hmax Hlive Hwf' | Hnew Hfull].
  - (* known site *)
    rewrite (status_at_live _ _ _ Hi).
    pose proof (set_status_live (data st) i r) as Hset.
    rewrite Hc in Hset.
    destruct (Z.land (status r) tested_failure =? 0)%Z eqn:Hbit.
    + eapply spec_first; eauto using set_status_wf.
      unfold has_failed. by rewrite Hbit.
    + destruct (real (heap st)) as [p h] eqn:Hreal.
      eapply spec_again; eauto using set_status_wf.
      unfold has_failed. by rewrite Hbit.
  - (* new site *)
    assert (Hslot : live d' !! record_count (data st)
                    = Some {| caller := ra; status := 0 |}).
    { rewrite Hlive, <- (live_length _ Hwf).
      by rewrite lookup_app_r, Nat.sub_diag. }
    rewrite (status_at_live _ _ _ Hslot). simpl.
    eapply spec_fresh; simpl; eauto using set_status_wf.
    rewrite (set_status_live _ _ _ _ Hslot), Hlive. simpl.
    rewrite <- (live_length _ Hwf) at 1.
    rewrite <- (Nat.add_0_r (length _)), insert_app_r. reflexivity.
  - by apply spec_full.
Qed.

Lemma invoke_intercept c :
  invoke (H:=H) c = intercept (H:=H) c (real_of c).
Proof. destruct c; reflexivity. Qed.

Lemma invoke_correct c ra (st : State H) :
  wf (data st) -> intercept_spec c (real_of c) ra st (invoke c ra st).
Proof. rewrite invoke_intercept. apply intercept_correct. Qed.

End Interception.

(** ** Order on tables *)

Lemma record_le_refl r : record_le r r.
Proof. by repeat split. Qed.

Lemma record_le_trans r1 r2 r3 :
  record_le r1 r2 -> record_le r2 r3 -> record_le r1 r3.
Proof.
  intros (Hc & Hf & Hs) (Hc' & Hf' & Hs').
  repeat split; [congruence | auto ..].
Qed.

Lemma table_le_refl d : table_le d d.
Proof.
  repeat split; [lia|]. intros i r Hi. exists r. auto using record_le_refl.
Qed.

Lemma table_le_trans d1 d2 d3 :
  table_le d1 d2 -> table_le d2 d3 -> table_le d1 d3.
Proof.
  intros (Hm & Hc & Hr) (Hm' & Hc' & Hr').
  repeat split; [congruence | lia |].
  intros i r Hi. destruct (Hr _ _ Hi) as (r2 & Hi2 & Hle).
  destruct (Hr' _ _ Hi2) as (r3 & Hi3 & Hle').
  exists r3. eauto using record_le_trans.
Qed.

Lemma table_le_app d d' x :
  live d' = live d ++ [x] ->
  record_count d' = S (record_count d) ->
  max_records d' = max_records d ->
  table_le d d'.
Proof.
  intros Hl Hc Hm. repeat split; [done | lia |].
  intros i r Hi. exists r. split; [|apply record_le_refl].
  rewrite Hl, lookup_app_l; [done | by eapply lookup_lt_Some].
Qed.

Lemma table_le_insert d d' i r r' :
  live d !! i = Some r -> record_le r r' ->
  live d' = <[i := r']> (live d) ->
  record_count d' = record_count d ->
  max_records d' = max_records d ->
  table_le d d'.
Proof.
  intros Hi Hle Hl Hc Hm. repeat split; [done | lia |].
  intros j r0 Hj. rewrite Hl. destruct (decide (i = j)) as [<-|Hne].
  - exists r'. rewrite list_lookup_insert_eq by (by eapply lookup_lt_Some).
    split; [done | congruence].
  - exists r0. rewrite list_lookup_insert_ne by done.
    auto using record_le_refl.
Qed.

Lemma callers_insert d d' i r v :
  live d !! i = Some r ->
  live d' = <[i := {| caller := caller r; status := v |}]> (live d) ->
  callers d' = callers d.
Proof.
  intros Hi Hl. unfold callers. rewrite Hl, list_fmap_insert. simpl.
  apply list_insert_id. by rewrite list_lookup_fmap, Hi.
Qed.

Lemma callers_app d d' ra s :
  live d' = live d ++ [{| caller := ra; status := s |}] ->
  callers d' = callers d ++ [ra].
Proof. intros Hl. unfold callers. by rewrite Hl, fmap_app. Qed.

(** ** The coverage measure *)

Lemma sum_list_with_insert {A} (f : A -> nat) (l : list A) i x y :
  l !! i = Some y ->
  sum_list_with f (<[i := x]> l) + f y = sum_list_with f l + f x.
Proof.
  revert i. induction l as [|a l IH]; intros [|i] Hi; simplify_eq/=; [lia|].
  specialize (IH _ Hi). lia.
Qed.

Lemma weight_le r : weight r <= 2.
Proof.
  unfold weight. destruct (has_failed r), (has_succeeded r); simpl; lia.
Qed.

Lemma coverage_bound d : wf d -> coverage d <= 2 * max_records d.
Proof.
  intros Hwf.
  assert (coverage d <= 2 * length (live d)) as Hsum.
  { unfold coverage. induction (live d) as [|r l IH]; simpl; [lia|].
    pose proof (weight_le r). lia. }
  rewrite (live_length d Hwf) in Hsum. destruct Hwf as [Hle _]. lia.
Qed.

(** ** Invocations at a site *)

Lemma at_site_snoc_same ra t iv :
  inv_site iv = ra -> at_site ra (t ++ [iv]) = at_site ra t ++ [iv].
Proof.
  intros Hs. unfold at_site. rewrite filter_app. f_equal.
  by rewrite filter_cons_True.
Qed.

Lemma at_site_snoc_other ra t iv :
  inv_site iv <> ra -> at_site ra (t ++ [iv]) = at_site ra t.
Proof.
  intros Hs. unfold at_site. rewrite filter_app.
  rewrite filter_cons_False by done. apply app_nil_r.
Qed.

(** ** What one invocation does to the table and to the log *)

Lemma weight_fresh ra :
  weight {| caller := ra; status := tested_failure |} = 1.
Proof. reflexivity. Qed.

Lemma live_caller_elem d i r : live d !! i = Some r -> caller r ∈ callers d.
Proof.
  intros Hi. unfold callers. apply list_elem_of_fmap_2.
  apply list_elem_of_lookup. eauto.
Qed.

Section Moves.
Context {H : Type} {RA : RealAllocator H}.

Ltac step_cases :=
  destruct 1 as [c ra st Hwf]; cbn [fst snd];
  destruct (invoke_correct c ra st Hwf)
    as [ Hnew Hfull
       | st' Hnew Hroom Hlive Hcount Hmax Hwf' Hheap Htrace
       | i r st' Hi Hc Hfirst Hflag Hlive Hcount Hmax Hwf' Hheap Htrace
       | i r st' p h Hi Hc Hfirst Hflag Hreal Hlive Hcount Hmax Hwf'
           Hheap Htrace ];
  cbn [state_of].

Lemma moves_wf v v' : moves (H:=H) v v' -> wf v.1 /\ wf v'.1.
Proof. step_cases; auto. Qed.

Lemma moves_table_le v v' : moves (H:=H) v v' -> table_le v.1 v'.1.
Proof.
  step_cases.
  - apply table_le_refl.
  - by eapply table_le_app.
  - eapply table_le_insert; [done | | done ..].
    match goal with |- record_le _ ?x =>
      destruct (flags_set_failure r x eq_refl) as [Hf Hs] end.
    repeat split; [simpl; congruence | eauto | rewrite Hs; eauto].
  - eapply table_le_insert; [done | | done ..].
    match goal with |- record_le _ ?x =>
      destruct (flags_set_success r x eq_refl) as [Hs Hf] end.
    repeat split; [simpl; congruence | rewrite Hf; eauto | eauto].
Qed.

Lemma moves_unique v v' :
  moves (H:=H) v v' -> unique_sites v.1 -> unique_sites v'.1.
Proof.
  unfold unique_sites. step_cases; intros Hnd.
  - done.
  - rewrite (callers_app _ _ _ _ Hlive). apply NoDup_app.
    split; [done|]. split; [|apply NoDup_singleton].
    intros x Hx ->%list_elem_of_singleton. done.
  - subst ra. by rewrite (callers_insert _ _ _ _ _ Hi Hlive).
  - subst ra. by rewrite (callers_insert _ _ _ _ _ Hi Hlive).
Qed.

Lemma moves_coverage v v' :
  moves (H:=H) v v' ->
  (live v'.1 = live v.1 /\ record_count v'.1 = record_count v.1) \/
  coverage v.1 < coverage v'.1.
Proof.
  step_cases.
  - by left.
  - right. unfold coverage.
    rewrite Hlive, sum_list_with_app. cbn [sum_list_with].
    rewrite weight_fresh. lia.
  - right. unfold coverage. rewrite Hlive.
    match goal with |- context [<[i := ?x]> _] => set (r' := x) end.
    pose proof (sum_list_with_insert weight _ i r' r Hi) as Hsum.
    destruct (flags_set_failure r r' eq_refl) as [Hf Hs].
    unfold weight in *. rewrite Hf, Hs, Hflag in *. simpl in *. lia.
  - destruct (has_succeeded r) eqn:Hsucc.
    + left. split; [|done]. subst ra.
      rewrite Hlive, (set_success_id r Hsucc). by apply list_insert_id.
    + right. unfold coverage. rewrite Hlive.
      match goal with |- context [<[i := ?x]> _] => set (r' := x) end.
      pose proof (sum_list_with_insert weight _ i r' r Hi) as Hsum.
      destruct (flags_set_success r r' eq_refl) as [Hs Hf].
      unfold weight in *. rewrite Hf, Hs, Hflag, Hsucc in *.
      simpl in *. lia.
Qed.

Lemma moves_site_inv v v' :
  moves (H:=H) v v' -> site_inv v.1 v.2 -> site_inv v'.1 v'.2.
Proof.
  step_cases; intros (Hall & Hnone & Hsome).
  - done.
  - pose proof (callers_app _ _ _ _ Hlive) as Hcs.
    split; [|split].
    + rewrite Hlive. apply Forall_app. split; [done|].
      by apply Forall_singleton.
    + intros ra'. rewrite Hcs, not_elem_of_app, list_elem_of_singleton.
      intros [Hout Hne]. rewrite Htrace, at_site_snoc_other by (simpl; congruence).
      by apply Hnone.
    + intros ra'. rewrite Hcs, elem_of_app, list_elem_of_singleton.
      intros [Hin | ->].
      * rewrite Htrace. unfold served_once.
        rewrite at_site_snoc_other; [by apply Hsome|].
        simpl. intros <-. done.
      * rewrite Htrace. unfold served_once.
        rewrite at_site_snoc_same, (Hnone _ Hnew) by done.
        eexists _, []. simpl. by repeat split.
  - rewrite Forall_lookup in Hall. specialize (Hall _ _ Hi). congruence.
  - subst ra. pose proof (callers_insert _ _ _ _ _ Hi Hlive) as Hcs.
    split; [|split].
    + rewrite Hlive. apply Forall_insert; [done|].
      match goal with |- has_failed ?x = _ =>
        destruct (flags_set_success r x eq_refl) as [_ Hf] end.
      rewrite Hf. rewrite Forall_lookup in Hall. by eapply Hall.
    + intros ra'. rewrite Hcs. intros Hout. rewrite Htrace.
      rewrite at_site_snoc_other; [by apply Hnone|].
      simpl. intros <-. apply Hout. by eapply live_caller_elem.
    + intros ra'. rewrite Hcs. intros Hin. rewrite Htrace.
      destruct (decide (ra' = caller r)) as [->|Hne].
      * destruct (Hsome _ Hin) as (first & rest & Hat & Hforced & Hret & Hrest).
        exists first, (rest ++ [{|
          inv_site := caller r;
          inv_steps := [Store (Z.lor (status r) tested_success);
                        Real c p];
          inv_ret := p |}]).
        rewrite at_site_snoc_same, Hat by done.
        repeat split; try done.
        apply Forall_app. split; [done|]. apply Forall_singleton.
        by eexists _, _.
      * unfold served_once. rewrite at_site_snoc_other by (simpl; congruence).
        by apply Hsome.
Qed.

End Moves.

(** ** Runs and campaigns as sequences of invocations *)

Section Runs.
Context {H : Type} {RA : RealAllocator H}.

Lemma execute_moves p (st : State H) :
  wf (data st) ->
  rtc moves (data st, trace st)
    (data (execute p st).2, trace (execute p st).2).
Proof.
  revert st. induction p as [ws | c ra k IH]; intros st Hwf; simpl.
  - reflexivity.
  - pose proof (moves_invoke c ra st Hwf) as Hm.
    destruct (invoke c ra st) as [r st' | code st'] eqn:Hinv; simpl in Hm.
    + eapply rtc_l; [exact Hm|]. apply IH.
      apply moves_wf in Hm. tauto.
    + by apply rtc_once.
Qed.

Lemma rtc_moves_wf v v' : rtc (moves (H:=H)) v v' -> wf v.1 -> wf v'.1.
Proof.
  induction 1 as [|v1 v2 v3 Hm _ IH]; [done|].
  intros _. apply IH. apply moves_wf in Hm. tauto.
Qed.

Lemma rtc_moves_table_le v v' : rtc (moves (H:=H)) v v' -> table_le v.1 v'.1.
Proof.
  induction 1 as [|v1 v2 v3 Hm _ IH]; [apply table_le_refl|].
  eapply table_le_trans; [by apply moves_table_le | done].
Qed.

Lemma rtc_moves_unique v v' :
  rtc (moves (H:=H)) v v' -> unique_sites v.1 -> unique_sites v'.1.
Proof.
  induction 1 as [|v1 v2 v3 Hm _ IH]; [done|].
  intros Hu. apply IH. by eapply moves_unique.
Qed.

Lemma rtc_moves_site_inv v v' :
  rtc (moves (H:=H)) v v' -> site_inv v.1 v.2 -> site_inv v'.1 v'.2.
Proof.
  induction 1 as [|v1 v2 v3 Hm _ IH]; [done|].
  intros Hu. apply IH. by eapply moves_site_inv.
Qed.

Lemma rtc_moves_coverage v v' :
  rtc (moves (H:=H)) v v' ->
  (live v'.1 = live v.1 /\ record_count v'.1 = record_count v.1) \/
  coverage v.1 < coverage v'.1.
Proof.
  induction 1 as [|v1 v2 v3 Hm _ IH]; [by left|].
  apply moves_coverage in Hm.
  destruct Hm as [[Hl Hc] | Hlt], IH as [[Hl' Hc'] | Hlt'].
  - left. split; congruence.
  - right. unfold coverage in *. by rewrite <- Hl.
  - right. unfold coverage in *. by rewrite Hl'.
  - right. lia.
Qed.

(** One iteration of the driver moves the shared table by the
    invocations of the child, whatever the outcome. *)
Lemma run_once_moves (w : world H) s :
  wf (shared s) ->
  rtc moves (shared s, observed s)
    (shared (driver_of (run_once w s)),
     observed (driver_of (run_once w s))).
Proof.
  intros Hwf. unfold run_once. destruct (w (S (run_count s))) as [|p h].
  - reflexivity.
  - pose proof (execute_moves p
      {| data := shared s; heap := h; trace := observed s |} Hwf) as Hm.
    simpl in Hm.
    destruct (execute p _) as [ws st]. simpl in Hm.
    destruct ws; [| |done];
      destruct (tests_complete _ _) as [done tc]; by destruct (done =? 0)%Z.
Qed.

Lemma run_loop_moves fuel (w : world H) s :
  wf (shared s) ->
  rtc moves (shared s, observed s)
    (shared (final (run_loop fuel w s)),
     observed (final (run_loop fuel w s))).
Proof.
  revert s. induction fuel as [|fuel IH]; intros s Hwf; simpl; [done|].
  pose proof (run_once_moves w s Hwf) as Hm.
  destruct (run_once w s) as [s' | s' | s']; simpl in *; try done.
  etransitivity; [exact Hm|]. apply IH.
  by apply (rtc_moves_wf _ _ Hm).
Qed.

End Runs.

(** * The claims *)

Section Policy.
Context {H : Type} {RA : RealAllocator H}.

(** C1. Every wrapper ([malloc], [calloc], [realloc], [strdup],
    [strndup], reached through [invoke]) looks the call site up; when
    the lookup exits, so does the wrapper.  Otherwise the lookup yields
    the record of the site, and: if its failure flag is clear, the
    wrapper stores the status with the failure flag set and returns
    [NULL], leaving the heap untouched and logging no call of the real
    allocator; if it is set, the wrapper stores the status with the
    success flag set and returns exactly what the real entry point
    returns on the current heap. *)
Theorem wrapper_policy (c : call) (ra : Z) (st : State H) :
  wf (data st) ->
  match lookup_caller ra (data st) with
  | Exit code => invoke c ra st = Halt code st
  | Ok (i, d) =>
      exists r, records d !! i = Some r /\ caller r = ra /\
        if has_failed r then
          let v := Z.lor (status r) tested_success in
          let p := (real_of c (heap st)).1 in
          exists st' r',
            invoke c ra st = Val p st' /\
            heap st' = (real_of c (heap st)).2 /\
            records (data st')
              = <[i := {| caller := ra; status := v |}]> (records d) /\
            records (data st') !! i = Some r' /\
            has_succeeded r' = true /\
            trace st' = trace st ++
              [{| inv_site := ra; inv_steps := [Store v; Real c p];
                  inv_ret := p |}]
        else
          let v := Z.lor (status r) tested_failure in
          exists st' r',
            invoke c ra st = Val NULL st' /\
            heap st' = heap st /\
            records (data st')
              = <[i := {| caller := ra; status := v |}]> (records d) /\
            records (data st') !! i = Some r' /\
            has_failed r' = true /\
            trace st' = trace st ++
              [{| inv_site := ra; inv_steps := [Store v];
                  inv_ret := NULL |}]
  end.
Proof.
  intros Hwf. rewrite invoke_intercept. unfold intercept.
  pose proof (lookup_caller_spec ra (data st) Hwf) as Hspec.
  destruct (lookup_caller ra (data st)) as [[i d]|code]; [|done].
  assert (exists r, records d !! i = Some r /\ caller r = ra) as (r & Hr & Hc).
  { inversion Hspec as [j r Hj Hc Hfirst | d' Hnew Hroom Hcount Hmax Hlive Hwf' |];
      subst.
    - exists r. by apply live_lookup_Some in Hj as [_ ?].
    - exists {| caller := ra; status := 0 |}. split; [|reflexivity].
      assert (live d !! record_count (data st)
              = Some {| caller := ra; status := 0 |}) as Hslot.
      { rewrite Hlive, <- (live_length _ Hwf).
        by rewrite lookup_app_r, Nat.sub_diag. }
      by apply live_lookup_Some in Hslot as [_ ?]. }
  exists r. split; [done|]. split; [done|].
  pose proof (lookup_lt_Some _ _ _ Hr) as Hlen.
  unfold status_at, set_status. rewrite Hr, Hc. unfold has_failed.
  destruct (Z.land (status r) tested_failure =? 0)%Z; cbn [negb].
  - eexists _, _. repeat split; cbn [data heap trace]; try reflexivity.
    + by apply list_lookup_insert_eq.
    + by apply (flags_set_failure r).
  - destruct (real_of c (heap st)) as [p h]. cbn [fst snd].
    eexists _, _. repeat split; cbn [data heap trace]; try reflexivity.
    + by apply list_lookup_insert_eq.
    + by apply (flags_set_success r).
Qed.

Lemma report_row_flags r :
  report_row r = MsgRow (caller r) (has_succeeded r) (has_failed r).
Proof. reflexivity. Qed.

(** C10. When the record found for the call site already has its
    failure flag, the wrapper returns whatever the real entry point
    returns on the current heap, and the record has its success flag
    afterwards whatever that value is, the null pointer included: the
    store of the status with the success flag comes before the call of
    the real allocator in the invocation, and the report row of the
    record reads yes in the Tested Success column. *)
Theorem success_flag_unconditional (c : call) (ra : Z) (st : State H)
    (i : nat) (d : Data) (r : record) :
  lookup_caller ra (data st) = Ok (i, d) ->
  records d !! i = Some r ->
  has_failed r = true ->
  let p := (real_of c (heap st)).1 in
  let v := Z.lor (status r) tested_success in
  exists st' r',
    invoke c ra st = Val p st' /\
    records (data st') !! i = Some r' /\
    has_succeeded r' = true /\
    report_row r' = MsgRow (caller r) true true /\
    Z.land v tested_success <> 0%Z /\
    trace st' = trace st ++
      [{| inv_site := ra; inv_steps := [Store v; Real c p];
          inv_ret := p |}].
Proof.
  intros Hlook Hr Hf. cbv zeta.
  rewrite invoke_intercept. unfold intercept.
  rewrite Hlook. unfold status_at, set_status. rewrite Hr.
  pose proof (lookup_lt_Some _ _ _ Hr) as Hlen.
  pose proof Hf as Hbit. unfold has_failed in Hbit.
  destruct (Z.land (status r) tested_failure =? 0)%Z; [done|].
  destruct (real_of c (heap st)) as [p h]. cbn [fst snd].
  set (r' := {| caller := caller r;
                status := Z.lor (status r) tested_success |}).
  destruct (flags_set_success r r' eq_refl) as [Hs Hf'].
  exists {| data := {| record_count := record_count d;
                       max_records := max_records d;
                       records := <[i := r']> (records d) |};
            heap := h;
            trace := trace st ++
              [{| inv_site := ra;
                  inv_steps := [Store (Z.lor (status r) tested_success);
                                Real c p];
                  inv_ret := p |}] |}, r'.
  repeat split; cbn [data records trace].
  - by apply list_lookup_insert_eq.
  - exact Hs.
  - by rewrite report_row_flags, Hs, Hf', Hf.
  - unfold has_succeeded in Hs. cbn [status r'] in Hs.
    intros Hz. by rewrite Hz in Hs.
Qed.

End Policy.

Lemma wf_failed_table : wf failed_table.
Proof. split; simpl; lia. Qed.

Lemma wrapper_policy_witness :
  wf (data (process failed_table)) /\
  exists st',
    invoke (Malloc 16) 100 (process failed_table) = Val 4096%Z st' /\
    heap st' = 16%Z /\ records (data st') = records covered_table.
Proof.
  split; [exact wf_failed_table|].
  pose proof (wrapper_policy (Malloc 16) 100 (process failed_table)
                wf_failed_table) as Hp.
  cbn in Hp. destruct Hp as (r & Hr & _ & Hp).
  injection Hr as <-. cbn in Hp.
  destruct Hp as (st' & r' & Hinv & Hheap & Hrec & _).
  exists st'. split; [exact Hinv|]. split; [exact Hheap | exact Hrec].
Defined.

Lemma success_flag_unconditional_witness :
  lookup_caller 100 (data (process failed_table)) = Ok (0, failed_table) /\
  records failed_table !! 0 = Some {| caller := 100; status := 1 |} /\
  has_failed {| caller := 100; status := 1 |} = true /\
  exists st' r',
    invoke (Malloc 1048576) 100 (process failed_table) = Val NULL st' /\
    records (data st') !! 0 = Some r' /\ has_succeeded r' = true.
Proof.
  assert (lookup_caller 100 (data (process failed_table))
          = Ok (0, failed_table)) as Hlook by reflexivity.
  assert (records failed_table !! 0 = Some {| caller := 100; status := 1 |})
    as Hr by reflexivity.
  assert (has_failed {| caller := 100; status := 1 |} = true)
    as Hf by reflexivity.
  split; [exact Hlook|]. split; [exact Hr|]. split; [exact Hf|].
  destruct (success_flag_unconditional (Malloc 1048576) 100
              (process failed_table) 0 failed_table _ Hlook Hr Hf)
    as (st' & r' & Hinv & Hrec & Hsucc & _).
  exists st', r'. split; [exact Hinv|]. split; [exact Hrec | exact Hsucc].
Defined.

(** ** Convergence detection *)

Lemma land_flags_disjoint (a b : Z) :
  Z.land (Z.land 1 (Z.land a tested_failure)) (Z.land b tested_success) = 0%Z.
Proof.
  apply Z.bits_inj'. intros m Hm.
  rewrite !Z.land_spec, Z.bits_0.
  change 1%Z with (2 ^ 0)%Z. change tested_success with (2 ^ 1)%Z.
  rewrite !Z.pow2_bits_eqb by lia.
  destruct (Z.eqb_spec 0 m), (Z.eqb_spec 1 m); try lia;
    rewrite ?andb_false_r, ?andb_false_l; reflexivity.
Qed.

Lemma tc_body_stuck l c : fst (fold_left tc_body l (0%Z, c)) = 0%Z.
Proof.
  revert c. induction l as [|r l IH]; intros c; simpl; [done|].
  rewrite !Z.land_0_l. apply IH.
Qed.

(** As soon as the table has a live record, the loop of [tests_complete]
    leaves [done] at zero, whatever the flags. *)
Lemma tc_loop_done d : live d <> [] -> fst (tc_loop d) = 0%Z.
Proof.
  unfold tc_loop. destruct (live d) as [|r l]; [done|]. intros _.
  cbn [fold_left tc_body]. rewrite land_flags_disjoint. apply tc_body_stuck.
Qed.

Lemma tests_complete_statics s d :
  remembers (snd (tests_complete s d)) d.
Proof.
  unfold tests_complete, remembers, checksum.
  by destruct (tc_loop d) as [done sum].
Qed.

(** C2. The table [covered_table], which the single-site campaign
    reaches after its second run, has full coverage (its only record has
    both flags) and differs from the table of the previous run,
    [failed_table]; [tests_complete] answers 0 on it. *)
Theorem full_coverage_missed :
  full_coverage covered_table /\
  let s0 := {| last_record_count := 0; last_checksum := 0 |} in
  let s1 := snd (tests_complete s0 failed_table) in
  fst (tests_complete s1 covered_table) = 0%Z.
Proof.
  split; [|reflexivity].
  intros r Hr. apply list_elem_of_singleton in Hr as ->. by split.
Qed.

(** C3. When the record count and the checksum of the table after the
    current run are those of the table on which [tests_complete] was
    evaluated after the previous run, [tests_complete] answers 1, so the
    loop condition [tests_complete() == 0] is false; nothing is assumed
    about the flags. *)
Theorem plateau_converges (s : tc_static) (prev cur : Data) :
  record_count cur = record_count prev ->
  checksum cur = checksum prev ->
  let s' := snd (tests_complete s prev) in
  fst (tests_complete s' cur) = 1%Z /\
  (fst (tests_complete s' cur) =? 0)%Z = false.
Proof.
  intros Hcount Hsum. cbv zeta.
  assert (fst (tests_complete (snd (tests_complete s prev)) cur) = 1%Z)
    as Hdone; [|by rewrite Hdone].
  destruct (tests_complete_statics s prev) as [Hc Hs].
  unfold checksum in *. unfold tests_complete at 1.
  destruct (tc_loop cur) as [done sum]. simpl in *.
  rewrite Hc, Hs, <- Hcount, <- Hsum.
  by rewrite Nat.eqb_refl, Z.eqb_refl.
Qed.

Lemma plateau_converges_witness :
  record_count failed_table = record_count failed_table /\
  checksum failed_table = checksum failed_table /\
  has_succeeded {| caller := 100; status := 1 |} = false /\
  fst (tests_complete
         (snd (tests_complete
                 {| last_record_count := 0; last_checksum := 0 |}
                 failed_table))
         failed_table) = 1%Z.
Proof.
  split; [reflexivity|]. split; [reflexivity|]. split; [reflexivity|].
  exact (proj1 (plateau_converges
                  {| last_record_count := 0; last_checksum := 0 |}
                  failed_table failed_table eq_refl eq_refl)).
Defined.

(** ** The table across a campaign *)

Lemma lookup_caller_table_le ra d i d' :
  wf d -> unique_sites d ->
  lookup_caller ra d = Ok (i, d') ->
  table_le d d' /\ unique_sites d'.
Proof.
  intros Hwf Hu Hlook.
  pose proof (lookup_caller_spec ra d Hwf) as Hspec. rewrite Hlook in Hspec.
  inversion Hspec as [j r Hj Hc Hfirst | d1 Hnew Hroom Hcount Hmax Hlive Hwf' |];
    subst.
  - split; [apply table_le_refl | done].
  - split; [by eapply table_le_app|].
    unfold unique_sites. rewrite (callers_app _ _ _ _ Hlive).
    apply NoDup_app. split; [done|]. split; [|apply NoDup_singleton].
    intros x Hx ->%list_elem_of_singleton. done.
Qed.

Lemma delegated_not_forced iv : delegated iv -> forced iv = false.
Proof. intros (v & c & Hsteps). unfold forced. by rewrite Hsteps. Qed.

Lemma served_once_forced_count ra t :
  served_once ra t -> forced_count ra t = 1.
Proof.
  intros (first & rest & Hat & Hforced & _ & Hrest).
  unfold forced_count. rewrite Hat.
  rewrite filter_cons_True by exact Hforced. simpl. f_equal.
  clear Hat. induction Hrest as [|iv l Hiv Hl IH]; [done|].
  rewrite filter_cons_False; [done|].
  rewrite (delegated_not_forced _ Hiv). done.
Qed.

Lemma site_inv_start d : record_count d = 0 -> site_inv d [].
Proof.
  intros Hz. unfold site_inv, callers, live. rewrite Hz. simpl.
  split; [constructor|]. split; [done|].
  intros ra Hin. by apply elem_of_nil in Hin.
Qed.

Lemma wf_fresh_table : wf fresh_table.
Proof.
  unfold wf, fresh_table. cbn [record_count max_records records].
  rewrite length_replicate. lia.
Qed.

Section Campaign.
Context {H : Type} {RA : RealAllocator H}.

(** C5. From a well-formed table whose live records have distinct
    callers, every operation -- the lookup, a wrapper invocation, a
    whole run of a target program, the driver loop over any number of
    runs -- ends in a table that extends the first one ([table_le]: the
    capacity is the same, every live record is still at its index with
    its caller, a flag that was set is still set) and whose live records
    still have distinct callers. *)
Theorem table_monotone (d : Data) :
  wf d -> unique_sites d ->
  (forall ra i d', lookup_caller ra d = Ok (i, d') ->
     table_le d d' /\ unique_sites d') /\
  (forall c ra (st : State H), data st = d ->
     let d' := data (state_of (invoke c ra st)) in
     table_le d d' /\ unique_sites d') /\
  (forall p (st : State H), data st = d ->
     let d' := data (execute p st).2 in
     table_le d d' /\ unique_sites d') /\
  (forall fuel (w : world H) s, shared s = d ->
     let d' := shared (final (run_loop fuel w s)) in
     table_le d d' /\ unique_sites d').
Proof.
  intros Hwf Hu. split; [|split; [|split]].
  - intros ra i d'. by apply lookup_caller_table_le.
  - intros c ra st <-. cbv zeta.
    pose proof (moves_invoke c ra st Hwf) as Hm. split.
    + exact (moves_table_le _ _ Hm).
    + exact (moves_unique _ _ Hm Hu).
  - intros p st <-. cbv zeta.
    pose proof (execute_moves p st Hwf) as Hm. split.
    + exact (rtc_moves_table_le _ _ Hm).
    + exact (rtc_moves_unique _ _ Hm Hu).
  - intros fuel w s <-. cbv zeta.
    pose proof (run_loop_moves fuel w s Hwf) as Hm. split.
    + exact (rtc_moves_table_le _ _ Hm).
    + exact (rtc_moves_unique _ _ Hm Hu).
Qed.

(** C4, as the code has it. After any number of iterations of a
    campaign started by [run_tests] on the table set up by [init], a call
    site without a record has never been served; a call site with a
    record has been served at least once, its first invocation was
    answered with [NULL] without entering the real allocator, and every
    later invocation, in the same run or in a later one, stored a
    status, called the real allocator and returned what the real
    allocator returned.  So exactly one invocation per recorded site is
    a forced failure. *)
Theorem forced_once (fuel : nat) (w : world H) (ra : Z) :
  let s := final (run_tests fuel w fresh_table) in
  (ra ∉ callers (shared s) -> at_site ra (observed s) = []) /\
  (ra ∈ callers (shared s) ->
     served_once ra (observed s) /\ forced_count ra (observed s) = 1).
Proof.
  cbv zeta. unfold run_tests.
  pose proof (run_loop_moves fuel w (start fresh_table) wf_fresh_table) as Hm.
  apply rtc_moves_site_inv in Hm; [|by apply site_inv_start].
  destruct Hm as (_ & Hnone & Hsome). split; [apply Hnone|].
  intros Hin. split; [by apply Hsome|].
  apply served_once_forced_count. by apply Hsome.
Qed.

End Campaign.

Lemma table_monotone_witness :
  wf failed_table /\ unique_sites failed_table /\
  table_le failed_table
    (data (execute single_site (process failed_table)).2).
Proof.
  assert (unique_sites failed_table) as Hu by apply NoDup_singleton.
  split; [exact wf_failed_table|]. split; [exact Hu|].
  destruct (table_monotone (H:=Z) failed_table wf_failed_table Hu)
    as (_ & _ & Hrun & _).
  exact (proj1 (Hrun single_site (process failed_table) eq_refl)).
Defined.

Lemma forced_once_witness :
  let s := final (run_tests 2 (every greedy) fresh_table) in
  200%Z ∈ callers (shared s) /\
  served_once 200 (observed s) /\ forced_count 200 (observed s) = 1.
Proof.
  cbv zeta.
  assert (200%Z ∈ callers (shared (final (run_tests 2 (every greedy)
                                            fresh_table)))) as Hin.
  { apply list_elem_of_lookup. exists 0. vm_compute. reflexivity. }
  split; [exact Hin|].
  exact (proj2 (forced_once 2 (every greedy) 200) Hin).
Defined.

(** C4, as stated, fails: in the campaign whose target asks, at its one
    call site, for more than the real allocator can give, the site has a
    record and two of its invocations returned the null pointer -- the
    forced one of run 1 and the delegated one of run 2. *)
Lemma exactly_once_counterexample :
  let s := final (run_tests 2 (every greedy) fresh_table) in
  callers (shared s) = [200%Z] /\
  map inv_ret (at_site 200 (observed s)) = [NULL; NULL] /\
  null_returns 200 (observed s) = 2.
Proof. vm_compute. repeat split. Qed.

(** ** Termination of the driver loop *)

Lemma tests_complete_plateau s d0 d :
  remembers s d0 -> live d = live d0 -> record_count d = record_count d0 ->
  fst (tests_complete s d) = 1%Z.
Proof.
  unfold remembers, checksum, tests_complete, tc_loop.
  intros [Hc Hs] Hl Hrc. rewrite Hl.
  destruct (fold_left tc_body (live d0) (1%Z, 0%Z)) as [done sum].
  simpl in *. by rewrite Hc, Hs, Hrc, Nat.eqb_refl, Z.eqb_refl.
Qed.

Section Termination.
Context {H : Type} {RA : RealAllocator H}.

Lemma run_once_count (w : world H) s :
  run_count (driver_of (run_once w s)) = S (run_count s).
Proof.
  unfold run_once. destruct (w (S (run_count s))) as [|p h]; [done|].
  destruct (execute p _) as [ws st].
  destruct ws; [| |done];
    destruct (tests_complete _ _) as [done tc]; by destruct (done =? 0)%Z.
Qed.

(** An iteration after which the loop goes on has changed the table. *)
Lemma run_once_progress (w : world H) s s' :
  wf (shared s) -> remembers (statics s) (shared s) ->
  run_once w s = Again s' ->
  coverage (shared s) < coverage (shared s') /\
  remembers (statics s') (shared s').
Proof.
  intros Hwf Hrem. unfold run_once.
  destruct (w (S (run_count s))) as [|p h]; [done|].
  pose proof (execute_moves p
    {| data := shared s; heap := h; trace := observed s |} Hwf) as Hm.
  apply rtc_moves_coverage in Hm. simpl in Hm.
  destruct (execute p _) as [ws st]. simpl in Hm.
  pose proof (tests_complete_statics (statics s) (data st)) as Hrem'.
  assert (fst (tests_complete (statics s) (data st)) = 0%Z ->
          coverage (shared s) < coverage (data st)) as Hgrow.
  { intros Hz. destruct Hm as [[Hl Hc] | Hlt]; [|done].
    rewrite (tests_complete_plateau _ _ _ Hrem Hl Hc) in Hz. done. }
  destruct ws; [| |done];
    destruct (tests_complete _ _) as [done tc]; simpl in *;
    destruct (Z.eqb_spec done 0); intros [= <-]; simpl; auto.
Qed.

Lemma run_once_classified (w : world H) s s' :
  classifiable w -> run_once w s <> Abort s'.
Proof.
  intros Hw. specialize (Hw (S (run_count s))). unfold run_once.
  destruct (w (S (run_count s))) as [|p h]; [done|].
  specialize (Hw {| data := shared s; heap := h; trace := observed s |}).
  destruct (execute p _) as [ws st]. simpl in Hw.
  destruct ws; [| |done];
    destruct (tests_complete _ _) as [done tc]; by destruct (done =? 0)%Z.
Qed.

Lemma run_loop_exits (w : world H) fuel s :
  wf (shared s) -> remembers (statics s) (shared s) ->
  2 * max_records (shared s) - coverage (shared s) < fuel ->
  exists code s',
    run_loop fuel w s = Exited code s' /\
    run_count s' + coverage (shared s)
      <= run_count s + 2 * max_records (shared s) + 1 /\
    (classifiable w -> code = EXIT_SUCCESS).
Proof.
  revert s. induction fuel as [|fuel IH]; intros s Hwf Hrem Hfuel; [lia|].
  pose proof (coverage_bound _ Hwf) as Hbound.
  pose proof (run_once_count w s) as Hcount.
  pose proof (run_once_moves w s Hwf) as Hm.
  simpl. destruct (run_once w s) as [s' | s' | s'] eqn:Hrun; simpl in *.
  - exists EXIT_FAILURE, s'. split; [done|]. split; [lia|].
    intros Hw. by apply (run_once_classified w s s') in Hw.
  - destruct (run_once_progress w s s' Hwf Hrem Hrun) as [Hlt Hrem'].
    pose proof (rtc_moves_wf _ _ Hm Hwf) as Hwf'.
    destruct (rtc_moves_table_le _ _ Hm) as (Hmax & _). simpl in *.
    pose proof (coverage_bound _ Hwf') as Hbound'.
    destruct (IH s' Hwf' Hrem') as (code & s'' & Hloop & Hruns & Hok);
      [lia|].
    exists code, s''. split; [done|]. split; [lia | done].
  - eexists EXIT_SUCCESS, _. split; [done|]. simpl. split; [lia | done].
Qed.

(** Once the loop has exited, more iterations allowed change nothing. *)
Lemma run_loop_stable (w : world H) fuel fuel' s code s' :
  run_loop fuel w s = Exited code s' -> fuel <= fuel' ->
  run_loop fuel' w s = Exited code s'.
Proof.
  revert fuel' s. induction fuel as [|fuel IH]; intros fuel' s; [done|].
  intros Hrun Hle. destruct fuel' as [|fuel']; [lia|]. simpl in *.
  destruct (run_once w s); try done. apply IH; [done | lia].
Qed.

(** C7. Whatever the runs do, the driver loop started by [run_tests] on
    the table set up by [init] has exited after at most
    [2 * max_records + 1] iterations: given that many iterations or more,
    the campaign is [Exited], never [StillRunning], and its outcome is
    the one reached within [2 * max_records + 1] iterations.  When every
    fork succeeds and every run ends with a status that [WIFSIGNALED] or
    [WIFEXITED] classifies, the exit is the one after the report, with
    [EXIT_SUCCESS]. *)
Theorem campaign_terminates (w : world H) (fuel : nat) :
  2 * max_records fresh_table < fuel ->
  exists code s,
    run_tests fuel w fresh_table = Exited code s /\
    run_tests (2 * max_records fresh_table + 1) w fresh_table
      = Exited code s /\
    run_count s <= 2 * max_records fresh_table + 1 /\
    (classifiable w -> code = EXIT_SUCCESS).
Proof.
  intros Hfuel. unfold run_tests.
  assert (coverage fresh_table = 0) as Hzero by reflexivity.
  destruct (run_loop_exits w (2 * max_records fresh_table + 1)
              (start fresh_table) wf_fresh_table)
    as (code & s & Hloop & Hruns & Hok).
  - by split.
  - cbn [shared start]. lia.
  - exists code, s. cbn [shared start run_count] in Hruns.
    split; [|split; [done|split; [lia | done]]].
    eapply run_loop_stable; [exact Hloop | lia].
Qed.

End Termination.

Lemma single_site_classifiable : classifiable (every single_site).
Proof.
  intros n st. unfold every, single_site. simpl.
  destruct (malloc 16 100 st) as [p st' | code st']; simpl; [|done].
  by destruct (p =? NULL)%Z.
Qed.

Lemma campaign_terminates_witness :
  2 * max_records fresh_table < 2049 /\
  exists s,
    run_tests 2049 (every single_site) fresh_table = Exited EXIT_SUCCESS s /\
    run_count s <= 2 * max_records fresh_table + 1.
Proof.
  assert (2 * max_records fresh_table < 2049) as Hfuel by (simpl; lia).
  split; [exact Hfuel|].
  destruct (campaign_terminates (every single_site) 2049 Hfuel)
    as (code & s & Hrun & _ & Hruns & Hok).
  exists s. rewrite <- (Hok single_site_classifiable). split; assumption.
Defined.

(** ** Capacity *)

Section Capacity.
Context {H : Type} {RA : RealAllocator H}.

(** When the table holds [max_records] records and the call site has
    none, the lookup calls [exit(EXIT_FAILURE)] in the process that made
    the call, before touching the table: the wrapper does not return, the
    table, heap and log are as they were, and a run that makes such a
    call ends there as a normal exit with status [EXIT_FAILURE]. *)
Lemma capacity_halts (c : call) (ra : Z) (d : Data) :
  ra ∉ callers d -> record_count d = max_records d ->
  lookup_caller ra d = Exit EXIT_FAILURE /\
  (forall st : State H, data st = d ->
     invoke c ra st = Halt EXIT_FAILURE st) /\
  (forall (st : State H) k, data st = d ->
     execute (Alloc c ra k) st = (WExited EXIT_FAILURE, st)).
Proof.
  intros Hnew Hfull.
  assert (lookup_caller ra d = Exit EXIT_FAILURE) as Hlook.
  { unfold lookup_caller.
    rewrite (proj2 (find_caller_None ra (live d) 0) Hnew).
    rewrite (proj2 (Nat.leb_le _ _)); [done | lia]. }
  assert (forall st : State H, data st = d ->
            invoke c ra st = Halt EXIT_FAILURE st) as Hinv.
  { intros st <-. rewrite invoke_intercept. unfold intercept.
    by rewrite Hlook. }
  split; [done|]. split; [done|].
  intros st k Hd. simpl. by rewrite (Hinv st Hd).
Qed.

End Capacity.

(** C6. The campaign of a target with 1025 call sites, from the table
    set up by [init] (capacity 1024).  In every run the lookup for the
    1025th site finds the table full and calls [exit(EXIT_FAILURE)]: the
    run, whose program would exit with status 0, ends with status 1.
    That exit is taken in the child only.  The parent reports three runs
    that exited with status 1, stops on the plateau after the third and
    exits with [EXIT_SUCCESS] after printing a report of 1024 sites; the
    site [1025] is in no record. *)
Theorem capacity_overflow_campaign :
  let c := run_tests 4 (every (crowd 1025 1)) fresh_table in
  fst (execute (crowd 1025 1) (process fresh_table))
    = WExited EXIT_FAILURE /\
  exit_code c = Some EXIT_SUCCESS /\
  run_count (final c) = 3 /\
  record_count (shared (final c)) = 1024 /\
  lookup_caller 1025 (shared (final c)) = Exit EXIT_FAILURE /\
  List.filter is_exit_report (out (final c))
  = [MsgExited 1 EXIT_FAILURE; MsgExited 2 EXIT_FAILURE;
     MsgExited 3 EXIT_FAILURE].
Proof. vm_compute. repeat split. Qed.

(** ** The single-site scenario *)

(** C8. The target [single_site] under the bump allocator, from the
    table set up by [init].  Run 1: the call is failed, the program
    exits with status 2, the table holds the one record with status 1
    (failed, not succeeded).  Run 2: the call is served, the record has
    status 3 (both flags) and the table has full coverage; yet the loop
    goes round again.  Run 3 leaves the table as it is and the loop
    stops; the campaign exits with [EXIT_SUCCESS] after three runs. *)
Theorem single_site_campaign :
  let w := every single_site in
  let s1 := driver_of (run_once w (start fresh_table)) in
  let s2 := driver_of (run_once w s1) in
  let s3 := driver_of (run_once w s2) in
  (shared s1 = failed_table /\
   live (shared s1) = [{| caller := 100; status := 1 |}] /\
   out s1 = [MsgRun 1; Unlink Core; MsgNewline; MsgExited 1 2]) /\
  (shared s2 = covered_table /\
   live (shared s2) = [{| caller := 100; status := 3 |}] /\
   full_coverage (shared s2) /\
   loops (run_once w s1) = true) /\
  (live (shared s3) = [{| caller := 100; status := 3 |}] /\
   loops (run_once w s2) = false) /\
  exit_code (run_tests 4 w fresh_table) = Some EXIT_SUCCESS /\
  run_count (final (run_tests 4 w fresh_table)) = 3.
Proof.
  cbv zeta.
  assert (live (shared (driver_of (run_once (every single_site)
            (driver_of (run_once (every single_site) (start fresh_table))))))
          = [{| caller := 100; status := 3 |}]) as Hlive
    by (vm_compute; reflexivity).
  split; [repeat split; vm_compute; reflexivity|].
  split; [|split; [split|split]; vm_compute; reflexivity].
  split; [vm_compute; reflexivity|].
  split; [exact Hlive|]. split; [|vm_compute; reflexivity].
  intros r Hr. rewrite Hlive in Hr.
  apply list_elem_of_singleton in Hr as ->. by split.
Qed.

(** ** Set-up *)

Section Setup.
Context {H : Type} {RA : RealAllocator H}.

(** C9. [init] with [strdup] and [strndup] unresolved ([dlsym] gave
    [NULL]) and a valid mapping does not exit: it enters [run_tests].
    [init] with every symbol resolved and [mmap] failing, that is
    returning [MAP_FAILED], does not take the [exit(EXIT_FAILURE)] of
    the [data == NULL] test either. *)
Theorem setup_unchecked (fuel : nat) (w : world H) :
  init {| sym_malloc := 4096; sym_calloc := 4112; sym_realloc := 4128;
          sym_strdup := NULL; sym_strndup := NULL |} 8192 fuel w
  = InitRun (run_tests fuel w fresh_table) /\
  init {| sym_malloc := 4096; sym_calloc := 4112; sym_realloc := 4128;
          sym_strdup := 4144; sym_strndup := 4160 |} MAP_FAILED fuel w
  = InitFault.
Proof. split; reflexivity. Qed.

End Setup.

(** * Further properties of the code *)

(** ** Lookups *)

Lemma find_caller_first ra rs i k r :
  rs !! k = Some r -> caller r = ra -> ra ∉ (caller <$> take k rs) ->
  find_caller ra rs i = Some (i + k).
Proof.
  revert i k. induction rs as [|r0 rs IH]; intros i k Hk Hc Hfirst; [done|].
  destruct k as [|k]; simpl in *.
  - injection Hk as ->. rewrite (proj2 (Z.eqb_eq _ _) Hc). f_equal. lia.
  - apply not_elem_of_cons in Hfirst as [Hne Hrest].
    destruct (Z.eqb_spec (caller r0) ra) as [Heq|_]; [congruence|].
    rewrite (IH (S i) k Hk Hc Hrest). f_equal. lia.
Qed.

Lemma lookup_caller_found ra d i r :
  live d !! i = Some r -> caller r = ra ->
  ra ∉ (caller <$> take i (live d)) ->
  lookup_caller ra d = Ok (i, d).
Proof.
  intros Hi Hc Hfirst. unfold lookup_caller.
  by rewrite (find_caller_first ra (live d) 0 i r Hi Hc Hfirst).
Qed.

(** X1. What [lookup_caller] returns is what the next lookup of the same
    call site returns: the record just found or created is found again,
    at the same index, and the table is not changed a second time. *)
Theorem lookup_caller_again (ra : Z) (d d' : Data) (i : nat) :
  wf d ->
  lookup_caller ra d = Ok (i, d') ->
  lookup_caller ra d' = Ok (i, d').
Proof.
  intros Hwf Hlook.
  pose proof (lookup_caller_spec ra d Hwf) as Hspec. rewrite Hlook in Hspec.
  inversion Hspec as [j r Hj Hc Hfirst | d1 Hnew Hroom Hcount Hmax Hlive Hwf' |];
    subst.
  - done.
  - apply (lookup_caller_found ra d' _ {| caller := ra; status := 0 |});
      [| reflexivity |].
    + rewrite Hlive, <- (live_length _ Hwf).
      by rewrite lookup_app_r, Nat.sub_diag.
    + rewrite Hlive, <- (live_length _ Hwf), take_app_length. exact Hnew.
Qed.

(** X2. A call site that has a live record is always found: the lookup
    returns the index of a live record with that caller and the table as
    it was.  It does not exit, whether or not the table is full. *)
Theorem lookup_caller_known (ra : Z) (d : Data) :
  ra ∈ callers d ->
  exists i r,
    lookup_caller ra d = Ok (i, d) /\
    i < record_count d /\ records d !! i = Some r /\ caller r = ra.
Proof.
  intros Hin. unfold lookup_caller.
  destruct (find_caller ra (live d) 0) as [i|] eqn:Hf.
  - apply find_caller_Some in Hf as (k & r & -> & Hk & Hc & _).
    apply live_lookup_Some in Hk as [Hlt Hr]. by exists k, r.
  - apply find_caller_None in Hf. done.
Qed.

(** A known call site keeps its index in every table that extends the
    current one. *)
Lemma lookup_caller_extend ra d d' i :
  wf d -> table_le d d' ->
  lookup_caller ra d = Ok (i, d) ->
  lookup_caller ra d' = Ok (i, d').
Proof.
  intros Hwf (_ & _ & Hrec) Hlook.
  pose proof (lookup_caller_spec ra d Hwf) as Hspec. rewrite Hlook in Hspec.
  inversion Hspec as [j r Hj Hc Hfirst | d1 Hnew Hroom Hcount Hmax Hlive Hwf' |];
    subst; [|lia].
  destruct (Hrec _ _ Hj) as (r' & Hj' & Hc' & _).
  eapply lookup_caller_found; [exact Hj' | done |].
  intros Hin. apply Hfirst.
  apply list_elem_of_fmap in Hin as (x & Hx & Hel).
  apply list_elem_of_lookup in Hel as [k Hk].
  apply lookup_take_Some in Hk as [Hk Hlt].
  assert (is_Some (live d !! k)) as [rk Hrk].
  { apply lookup_lt_is_Some. apply lookup_lt_Some in Hj. lia. }
  destruct (Hrec _ _ Hrk) as (rk' & Hrk' & Hck & _).
  apply list_elem_of_fmap. exists rk. split; [congruence|].
  apply list_elem_of_lookup. exists k. apply lookup_take_Some. done.
Qed.

Section Stability.
Context {H : Type} {RA : RealAllocator H}.

(** X3. Once a call site is found at an index, it is found at that
    index, with the table left as it is, after any further run of a
    target and after any number of iterations of the driver loop. *)
Theorem lookup_caller_stable (ra : Z) (d : Data) (i : nat) :
  wf d ->
  lookup_caller ra d = Ok (i, d) ->
  (forall p (st : State H), data st = d ->
     let d' := data (execute p st).2 in lookup_caller ra d' = Ok (i, d')) /\
  (forall fuel (w : world H) s, shared s = d ->
     let d' := shared (final (run_loop fuel w s)) in
     lookup_caller ra d' = Ok (i, d')).
Proof.
  intros Hwf Hlook. split.
  - intros p st <-. cbv zeta.
    apply (lookup_caller_extend ra (data st)); [done | | done].
    exact (rtc_moves_table_le _ _ (execute_moves p st Hwf)).
  - intros fuel w s <-. cbv zeta.
    apply (lookup_caller_extend ra (shared s)); [done | | done].
    exact (rtc_moves_table_le _ _ (run_loop_moves fuel w s Hwf)).
Qed.

End Stability.

Lemma lookup_caller_again_witness :
  wf failed_table /\
  exists d',
    lookup_caller 200 failed_table = Ok (1, d') /\
    lookup_caller 200 d' = Ok (1, d').
Proof.
  split; [exact wf_failed_table|].
  eexists. split; [reflexivity|].
  apply (lookup_caller_again 200 failed_table _ 1 wf_failed_table).
  reflexivity.
Defined.

Lemma lookup_caller_known_witness :
  100%Z ∈ callers packed_table /\
  record_count packed_table = max_records packed_table /\
  exists i r,
    lookup_caller 100 packed_table = Ok (i, packed_table) /\
    i < record_count packed_table /\
    records packed_table !! i = Some r /\ caller r = 100%Z.
Proof.
  assert (100%Z ∈ callers packed_table) as Hin by apply list_elem_of_here.
  split; [exact Hin|]. split; [reflexivity|].
  exact (lookup_caller_known 100 packed_table Hin).
Defined.

Lemma lookup_caller_stable_witness :
  wf failed_table /\
  lookup_caller 100 failed_table = Ok (0, failed_table) /\
  let d' := data (execute single_site (process failed_table)).2 in
  lookup_caller 100 d' = Ok (0, d').
Proof.
  assert (lookup_caller 100 failed_table = Ok (0, failed_table)) as Hlook
    by reflexivity.
  split; [exact wf_failed_table|]. split; [exact Hlook|].
  exact (proj1 (lookup_caller_stable (H:=Z) 100 failed_table 0
                  wf_failed_table Hlook)
           single_site (process failed_table) eq_refl).
Defined.

(** ** Bounds and values of the table *)

Lemma set_status_length d i v :
  length (records (set_status d i v)) = length (records d).
Proof.
  unfold set_status. simpl.
  destruct (records d !! i); [apply length_insert | done].
Qed.

Lemma lookup_caller_length ra d i d' :
  lookup_caller ra d = Ok (i, d') ->
  length (records d') = length (records d).
Proof.
  unfold lookup_caller. destruct (find_caller ra (live d) 0).
  - by intros [= _ <-].
  - destruct (max_records d <=? record_count d)%nat; [done|].
    intros [= _ <-]. simpl. apply length_insert.
Qed.

Section Bounds.
Context {H : Type} {RA : RealAllocator H}.

Ltac invocation_cases :=
  destruct 1 as [c ra st Hwf]; cbn [fst snd];
  destruct (invoke_correct c ra st Hwf)
    as [ Hnew Hfull
       | st' Hnew Hroom Hlive Hcount Hmax Hwf' Hheap Htrace
       | i r st' Hi Hc Hfirst Hflag Hlive Hcount Hmax Hwf' Hheap Htrace
       | i r st' p h Hi Hc Hfirst Hflag Hreal Hlive Hcount Hmax Hwf'
           Hheap Htrace ];
  cbn [state_of].

Lemma invoke_length c ra (st : State H) :
  length (records (data (state_of (invoke c ra st))))
  = length (records (data st)).
Proof.
  rewrite invoke_intercept. unfold intercept.
  destruct (lookup_caller ra (data st)) as [[i d]|code] eqn:Hlook; [|done].
  apply lookup_caller_length in Hlook. rewrite <- Hlook.
  destruct (Z.land _ _ =? 0)%Z; [|destruct (real_of c (heap st))];
    cbn [state_of data]; apply set_status_length.
Qed.

Lemma rtc_moves_length v v' :
  rtc (moves (H:=H)) v v' -> length (records v'.1) = length (records v.1).
Proof.
  induction 1 as [|v1 v2 v3 Hm _ IH]; [done|].
  rewrite IH. destruct Hm as [c ra st _]. apply invoke_length.
Qed.

(** X4. At every stage of a campaign started on the table set up by
    [init], the table holds at most 1024 live records, its capacity is
    still 1024 and the array still has its 1024 slots: no record is ever
    placed outside the mapped array. *)
Theorem table_bounds (fuel : nat) (w : world H) :
  let d := shared (final (run_tests fuel w fresh_table)) in
  record_count d <= 1024 /\ max_records d = 1024 /\
  length (records d) = 1024.
Proof.
  cbv zeta. unfold run_tests.
  pose proof (run_loop_moves fuel w (start fresh_table) wf_fresh_table) as Hm.
  pose proof (rtc_moves_wf _ _ Hm wf_fresh_table) as [Hle _].
  destruct (rtc_moves_table_le _ _ Hm) as (Hmax & _).
  apply rtc_moves_length in Hm. cbn [fst snd shared start] in *.
  change (max_records fresh_table) with 1024 in Hmax.
  rewrite Hmax in Hle. split; [exact Hle|]. split; [exact Hmax|].
  rewrite Hm. apply length_replicate.
Qed.

Lemma moves_statuses v v' :
  moves (H:=H) v v' ->
  Forall (fun r => status r = 1%Z \/ status r = 3%Z) (live v.1) ->
  Forall (fun r => status r = 1%Z \/ status r = 3%Z) (live v'.1).
Proof.
  invocation_cases; intros Hall.
  - done.
  - rewrite Hlive. apply Forall_app. split; [done|].
    apply Forall_singleton. by left.
  - rewrite Forall_lookup in Hall. specialize (Hall _ _ Hi).
    unfold has_failed in Hflag. by destruct Hall as [Hs | Hs]; rewrite Hs in Hflag.
  - rewrite Hlive. apply Forall_insert; [done|].
    rewrite Forall_lookup in Hall. specialize (Hall _ _ Hi).
    right. by destruct Hall as [Hs | Hs]; cbn [status]; rewrite Hs.
Qed.

Lemma rtc_moves_statuses v v' :
  rtc (moves (H:=H)) v v' ->
  Forall (fun r => status r = 1%Z \/ status r = 3%Z) (live v.1) ->
  Forall (fun r => status r = 1%Z \/ status r = 3%Z) (live v'.1).
Proof.
  induction 1 as [|v1 v2 v3 Hm _ IH]; [done|].
  intros Hall. apply IH. by eapply moves_statuses.
Qed.

(** X5. At every stage of a campaign started on the table set up by
    [init], the status of every live record is 1 (failed once) or 3
    (failed once, then served): no record is left at 0, and none has the
    success flag without the failure flag. *)
Theorem status_values (fuel : nat) (w : world H) :
  let d := shared (final (run_tests fuel w fresh_table)) in
  Forall (fun r => status r = 1%Z \/ status r = 3%Z) (live d).
Proof.
  cbv zeta. unfold run_tests.
  pose proof (run_loop_moves fuel w (start fresh_table) wf_fresh_table) as Hm.
  apply rtc_moves_statuses in Hm; [exact Hm|]. constructor.
Qed.

Lemma report_campaign_rows (fuel : nat) (w : world H) :
  let d := shared (final (run_tests fuel w fresh_table)) in
  report d = MsgTested (record_count d) :: MsgHeader
               :: map campaign_row (live d) /\
  length (map campaign_row (live d)) = record_count d /\
  NoDup (callers d).
Proof.
  cbv zeta. unfold run_tests.
  pose proof (run_loop_moves fuel w (start fresh_table) wf_fresh_table) as Hm.
  pose proof (rtc_moves_wf _ _ Hm wf_fresh_table) as Hwf.
  pose proof (rtc_moves_statuses _ _ Hm) as Hst.
  pose proof (rtc_moves_unique _ _ Hm) as Hu.
  cbn [fst snd shared start] in *.
  split; [|split].
  - unfold report. do 2 f_equal.
    specialize (Hst ltac:(constructor)).
    induction Hst as [|r l Hr _ IH]; [done|]. simpl. f_equal; [|exact IH].
    unfold report_row, campaign_row. by destruct Hr as [Hs | Hs]; rewrite Hs.
  - rewrite length_map. by apply live_length.
  - apply Hu. constructor.
Qed.

Lemma run_loop_report (fuel : nat) (w : world H) s0 s :
  run_loop fuel w s0 = Exited EXIT_SUCCESS s ->
  exists before, out s = before ++ report (shared s).
Proof.
  revert s0. induction fuel as [|fuel IH]; intros s0; [done|]. simpl.
  destruct (run_once w s0) as [s' | s' | s']; [done | apply IH |].
  intros [= <-]. by eexists.
Qed.

(** X6. When a campaign started on the table set up by [init] exits
    with [EXIT_SUCCESS], the parent's output ends with the report: the
    count line with the number of live records, the header, and one row
    per live record in table order.  The rows name pairwise distinct
    call sites, every row reads yes under Tested Failure, and reads yes
    under Tested Success exactly when the status of the record is 3. *)
Theorem report_rows (fuel : nat) (w : world H) (s : driver) :
  run_tests fuel w fresh_table = Exited EXIT_SUCCESS s ->
  (exists before,
     out s = before ++ MsgTested (record_count (shared s)) :: MsgHeader
                         :: map campaign_row (live (shared s))) /\
  length (map campaign_row (live (shared s))) = record_count (shared s) /\
  NoDup (callers (shared s)).
Proof.
  intros Hrun. pose proof (report_campaign_rows fuel w) as Hrows.
  cbv zeta in Hrows. rewrite Hrun in Hrows. cbn [final] in Hrows.
  destruct Hrows as (Hrep & Hlen & Hnd).
  split; [|split; assumption].
  destruct (run_loop_report fuel w _ _ Hrun) as [before Hout].
  exists before. by rewrite Hout, Hrep.
Qed.

End Bounds.

Lemma report_rows_witness :
  exists s,
    run_tests 4 (every single_site) fresh_table = Exited EXIT_SUCCESS s /\
    (exists before,
       out s = before ++ [MsgTested 1; MsgHeader; MsgRow 100 true true]) /\
    NoDup (callers (shared s)).
Proof.
  eexists. split; [vm_compute; reflexivity|].
  match goal with
  | |- context [out ?s] =>
      assert (run_tests 4 (every single_site) fresh_table
              = Exited EXIT_SUCCESS s) as Hrun by (vm_compute; reflexivity);
      destruct (report_rows 4 (every single_site) s Hrun)
        as ([before Hout] & _ & Hnd)
  end.
  split; [|exact Hnd]. exists before. exact Hout.
Defined.

(** ** The convergence test, exactly *)

Lemma tests_complete_answer (s : tc_static) (d : Data) :
  snd (tests_complete s d)
    = {| last_record_count := record_count d;
         last_checksum := checksum d |} /\
  (fst (tests_complete s d) = 1%Z \/ fst (tests_complete s d) = 0%Z) /\
  (fst (tests_complete s d) = 1%Z <-> live d = [] \/ remembers s d).
Proof.
  pose proof (tc_loop_done d) as Hdone.
  unfold tests_complete, remembers, checksum in *.
  assert (live d = [] -> fst (tc_loop d) = 1%Z) as Hempty.
  { unfold tc_loop. by intros ->. }
  destruct (tc_loop d) as [done sum]. cbn [fst snd] in *.
  split; [done|].
  destruct (Nat.eqb_spec (last_record_count s) (record_count d)) as [Hc|Hc];
    destruct (Z.eqb_spec (last_checksum s) sum) as [Hs|Hs]; cbn [andb];
    try (split; [by left | split; [intros _; by right | done]]);
    (destruct (live d) as [|r l];
     [ rewrite Hempty by done; split; [by left | split; [by left | done]]
     | rewrite Hdone by done; split; [by right|];
       split; [done | intros [? | [? ?]]; done] ]).
Qed.

(** X7. [tests_complete] answers 0 or 1 and always leaves the record
    count and the checksum of the table it was given in its statics.  It
    answers 1 exactly when the table has no live record or its record
    count and checksum are the ones left by the previous evaluation; the
    flags of the records do not enter into the answer otherwise. *)
Theorem tests_complete_result (s : tc_static) (d : Data) :
  snd (tests_complete s d)
    = {| last_record_count := record_count d;
         last_checksum := checksum d |} /\
  (fst (tests_complete s d) = 1%Z \/ fst (tests_complete s d) = 0%Z) /\
  (fst (tests_complete s d) = 1%Z <-> live d = [] \/ remembers s d).
Proof. apply tests_complete_answer. Qed.

(** ** The checksum on small tables *)

Lemma tc_body_digest l a c :
  snd (fold_left tc_body l (a, c))
  = fold_left (fun c s => to_size_t (c * 37 + to_size_t s)) (status <$> l) c.
Proof.
  revert a c. induction l as [|r l IH]; intros a c; [done|].
  simpl. apply IH.
Qed.

Lemma checksum_digest d : checksum d = digest (statuses d).
Proof. apply tc_body_digest. Qed.

Lemma base37_snoc l s : base37 (l ++ [s]) = (base37 l * 37 + s)%Z.
Proof. unfold base37. by rewrite fold_left_app. Qed.

Lemma digest_snoc l s :
  digest (l ++ [s]) = to_size_t (digest l * 37 + to_size_t s).
Proof. unfold digest. by rewrite fold_left_app. Qed.

(** Up to twelve base-37 digits, the checksum does not wrap. *)
Lemma digest_base37 l :
  Forall (fun s => 0 <= s < 37)%Z l -> length l <= 12 ->
  digest l = base37 l /\ (0 <= base37 l < 37 ^ Z.of_nat (length l))%Z.
Proof.
  induction l as [|s l IH] using rev_ind; intros Hall Hlen.
  - split; [done|]. unfold base37. simpl. lia.
  - apply Forall_app in Hall as [Hall Hs]. rewrite Forall_singleton in Hs.
    cbv beta in Hs. rewrite length_app in *. simpl in Hlen.
    destruct IH as [Hd Hb]; [done | lia |].
    rewrite digest_snoc, base37_snoc, Hd.
    replace (Z.of_nat (length l + length [s])) with (Z.succ (Z.of_nat (length l)))
      by (simpl; lia).
    rewrite Z.pow_succ_r by lia.
    assert (37 ^ Z.succ (Z.of_nat (length l)) <= 37 ^ 12)%Z as Hpow
      by (apply Z.pow_le_mono_r; lia).
    rewrite Z.pow_succ_r in Hpow by lia.
    assert (37 ^ 12 = 6582952005840035281)%Z as Htwelve by reflexivity.
    assert (size_t_modulus = 18446744073709551616)%Z as Hmod by reflexivity.
    rewrite Htwelve in Hpow.
    unfold to_size_t. rewrite Hmod.
    rewrite (Z.mod_small s) by lia.
    rewrite Z.mod_small by lia. split; [done | lia].
Qed.

Lemma base37_inj l l' :
  length l = length l' ->
  Forall (fun s => 0 <= s < 37)%Z l -> Forall (fun s => 0 <= s < 37)%Z l' ->
  base37 l = base37 l' -> l = l'.
Proof.
  revert l'. induction l as [|s l IH] using rev_ind; intros l' Hlen Hl Hl' Heq.
  - by destruct l'.
  - destruct l' as [|s' l' _] using rev_ind.
    + rewrite length_app in Hlen. simpl in Hlen. lia.
    + rewrite !length_app in Hlen. simpl in Hlen.
      apply Forall_app in Hl as [Hl Hs]. rewrite Forall_singleton in Hs.
      apply Forall_app in Hl' as [Hl' Hs']. rewrite Forall_singleton in Hs'.
      cbv beta in Hs, Hs'.
      rewrite !base37_snoc in Heq.
      assert (s = s' /\ base37 l = base37 l') as [-> Hb] by lia.
      f_equal. apply IH; [lia | done ..].
Qed.

Lemma live_statuses_eq prev cur :
  wf prev -> wf cur -> table_le prev cur ->
  record_count cur = record_count prev ->
  statuses cur = statuses prev ->
  live cur = live prev.
Proof.
  intros Hwp Hwc (_ & _ & Hrec) Hcount Hst.
  apply list_eq. intros i.
  destruct (live prev !! i) as [r|] eqn:Hi.
  - destruct (Hrec _ _ Hi) as (r' & Hi' & Hc & _). rewrite Hi'. f_equal.
    assert (statuses cur !! i = statuses prev !! i) as Hsi by by rewrite Hst.
    unfold statuses in Hsi. rewrite !list_lookup_fmap, Hi, Hi' in Hsi.
    injection Hsi as Hs. destruct r, r'. simpl in *. congruence.
  - apply lookup_ge_None in Hi. apply lookup_ge_None.
    rewrite live_length in * by done. lia.
Qed.

(** On tables of at most twelve records with status values below 37,
    the count and the checksum determine the live records of a table
    among those that extend a given one. *)
Lemma plateau_exact prev cur :
  wf prev -> wf cur -> table_le prev cur ->
  record_count cur = record_count prev -> record_count cur <= 12 ->
  Forall (fun s => 0 <= s < 37)%Z (statuses prev) ->
  Forall (fun s => 0 <= s < 37)%Z (statuses cur) ->
  checksum cur = checksum prev ->
  live cur = live prev.
Proof.
  intros Hwp Hwc Hle Hcount Hsmall Hp Hc Hsum.
  apply live_statuses_eq; try done.
  assert (length (statuses cur) = record_count cur) as Hlc
    by (unfold statuses; rewrite length_fmap; by apply live_length).
  assert (length (statuses prev) = record_count prev) as Hlp
    by (unfold statuses; rewrite length_fmap; by apply live_length).
  rewrite !checksum_digest in Hsum.
  destruct (digest_base37 (statuses cur)) as [Hdc _]; [done | lia |].
  destruct (digest_base37 (statuses prev)) as [Hdp _]; [done | lia |].
  apply base37_inj; [lia | done | done | congruence].
Qed.

Lemma statuses_small d :
  Forall (fun r => status r = 1%Z \/ status r = 3%Z) (live d) ->
  Forall (fun s => 0 <= s < 37)%Z (statuses d).
Proof.
  unfold statuses. intros Hall. apply Forall_fmap.
  eapply Forall_impl; [exact Hall|]. simpl. intros r [-> | ->]; lia.
Qed.

Lemma coverage_le_count d : wf d -> coverage d <= 2 * record_count d.
Proof.
  intros Hwf. rewrite <- (live_length d Hwf). unfold coverage.
  induction (live d) as [|r l IH]; simpl; [lia|].
  pose proof (weight_le r). lia.
Qed.

(** ** How a campaign stops, and how long it takes *)

Section Stopping.
Context {H : Type} {RA : RealAllocator H}.

Lemma run_once_verdict (w : world H) s s' :
  (run_once w s = Again s' ->
     fst (tests_complete (statics s) (shared s')) = 0%Z) /\
  (run_once w s = Complete s' ->
     fst (tests_complete (statics s) (shared s')) <> 0%Z).
Proof.
  unfold run_once. destruct (w (S (run_count s))) as [|p h]; [done|].
  destruct (execute p _) as [ws st].
  destruct ws; [| |done];
    destruct (tests_complete (statics s) (data st)) as [done tc] eqn:Htc;
    destruct (Z.eqb_spec done 0);
    split; intros [= <-]; cbn [shared]; by rewrite Htc.
Qed.

Lemma run_once_settled (w : world H) s :
  settled s ->
  wf (shared (driver_of (run_once w s))) /\
  table_le (shared s) (shared (driver_of (run_once w s))) /\
  Forall (fun r => status r = 1%Z \/ status r = 3%Z)
    (live (shared (driver_of (run_once w s)))) /\
  coverage (shared s) <= coverage (shared (driver_of (run_once w s))) /\
  (forall s', run_once w s = Again s' ->
     settled s' /\ coverage (shared s) < coverage (shared s')).
Proof.
  intros (Hwf & Hrem & Hst).
  pose proof (run_once_moves w s Hwf) as Hm.
  pose proof (rtc_moves_wf _ _ Hm Hwf) as Hwf'.
  pose proof (rtc_moves_statuses _ _ Hm Hst) as Hst'.
  split; [done|]. split; [exact (rtc_moves_table_le _ _ Hm)|].
  split; [done|]. split.
  - destruct (rtc_moves_coverage _ _ Hm) as [[Hl _] | Hlt]; cbn [fst] in *.
    + unfold coverage. by rewrite Hl.
    + lia.
  - intros s' Hrun. rewrite Hrun in *. cbn [driver_of fst snd] in *.
    destruct (run_once_progress w s s' Hwf Hrem Hrun) as [Hlt Hrem'].
    split; [|exact Hlt]. split; [exact Hwf'|]. split; [exact Hrem' | exact Hst'].
Qed.

(** The loop stops on a table of at most twelve records only after a run
    that left every live record as it was. *)
Lemma run_once_complete (w : world H) s s' :
  settled s -> run_once w s = Complete s' ->
  record_count (shared s') <= 12 ->
  live (shared s') = live (shared s).
Proof.
  intros Hset Hrun Hsmall. pose proof Hset as (Hwf & Hrem & Hst).
  destruct (run_once_settled w s Hset) as (Hwf' & Hle & Hst' & _).
  rewrite Hrun in *. cbn [driver_of] in *.
  apply (run_once_verdict w s s') in Hrun.
  destruct (tests_complete_answer (statics s) (shared s'))
    as (_ & Hbit & Hiff).
  assert (fst (tests_complete (statics s) (shared s')) = 1%Z) as Hone
    by (destruct Hbit; [done | congruence]).
  apply Hiff in Hone as [Hnil | [Hc Hs]].
  - rewrite Hnil. symmetry. apply length_zero_iff_nil.
    destruct Hle as (_ & Hcount & _).
    rewrite (live_length _ Hwf).
    pose proof (live_length _ Hwf') as Hlen. rewrite Hnil in Hlen.
    simpl in Hlen. lia.
  - destruct Hrem as [Hc0 Hs0].
    apply plateau_exact; try done; try congruence.
    + by apply statuses_small.
    + by apply statuses_small.
Qed.

Lemma run_loop_again (w : world H) n s0 s' :
  run_once w s0 = Again s' -> run_loop (S n) w s0 = run_loop n w s'.
Proof. intros Hrun. cbn [run_loop]. by rewrite Hrun. Qed.

(** A loop that has exited with [EXIT_SUCCESS] did so in its iteration
    number [n + 1]: after [n] iterations it was still running, in the
    state [before], and the next iteration completed. *)
Lemma run_loop_last (w : world H) fuel s0 s :
  settled s0 ->
  run_loop fuel w s0 = Exited EXIT_SUCCESS s ->
  exists n before last,
    n < fuel /\
    run_loop n w s0 = StillRunning before /\
    run_loop (S n) w s0 = Exited EXIT_SUCCESS s /\
    settled before /\ run_once w before = Complete last /\
    shared s = shared last /\ run_count s = run_count last.
Proof.
  revert s0. induction fuel as [|fuel IH]; intros s0 Hset Hloop; [done|].
  destruct (run_once w s0) as [s' | s' | s'] eqn:Hrun.
  - cbn [run_loop] in Hloop. by rewrite Hrun in Hloop.
  - rewrite (run_loop_again w fuel s0 s' Hrun) in Hloop.
    destruct (run_once_settled w s0 Hset) as (_ & _ & _ & _ & Hagain).
    destruct (IH s' (proj1 (Hagain s' Hrun)) Hloop)
      as (n & before & last & Hn & Hstill & Hexit & Hrest).
    exists (S n), before, last. split; [lia|].
    rewrite !(run_loop_again w _ s0 s' Hrun).
    split; [exact Hstill|]. split; [exact Hexit | exact Hrest].
  - exists 0, s0, s'. split; [lia|]. split; [done|].
    cbn [run_loop] in *. rewrite Hrun in *.
    split; [exact Hloop|]. injection Hloop as <-.
    split; [exact Hset|]. by split.
Qed.

Lemma settled_start : settled (start fresh_table).
Proof.
  split; [exact wf_fresh_table|]. split; [by split | constructor].
Qed.

(** X8. A campaign started on the table set up by [init] that exits
    with [EXIT_SUCCESS] having found at most twelve call sites stopped
    on a run that changed nothing: the campaign was still running after
    some number [n] of iterations, it exits in iteration [n + 1], and
    the live records after that last run are those the campaign had
    after [n] iterations.  With so few records the checksum cannot wrap,
    and the loop does not stop on a table that has changed. *)
Theorem small_campaign_stops_unchanged (fuel : nat) (w : world H) s :
  run_tests fuel w fresh_table = Exited EXIT_SUCCESS s ->
  record_count (shared s) <= 12 ->
  exists n before,
    n < fuel /\
    run_tests n w fresh_table = StillRunning before /\
    run_tests (S n) w fresh_table = Exited EXIT_SUCCESS s /\
    run_count s = S (run_count before) /\
    live (shared s) = live (shared before).
Proof.
  intros Hrun Hsmall. unfold run_tests in *.
  destruct (run_loop_last w fuel _ _ settled_start Hrun)
    as (n & before & last & Hn & Hstill & Hexit & Hset & Hlast
        & Hshared & Hcount).
  exists n, before. split; [done|]. split; [done|]. split; [done|]. split.
  - rewrite Hcount. pose proof (run_once_count w before) as Hone.
    by rewrite Hlast in Hone.
  - rewrite Hshared.
    apply (run_once_complete w before last Hset Hlast). by rewrite <- Hshared.
Qed.

Lemma run_loop_runs (w : world H) fuel s :
  settled s -> run_count s <= coverage (shared s) ->
  run_count (final (run_loop fuel w s))
    <= coverage (shared (final (run_loop fuel w s))) + 1.
Proof.
  revert s. induction fuel as [|fuel IH]; intros s Hset Hruns; simpl; [lia|].
  destruct (run_once_settled w s Hset) as (_ & _ & _ & Hmono & Hagain).
  pose proof (run_once_count w s) as Hn.
  destruct (run_once w s) as [s' | s' | s'] eqn:Hrun; cbn [driver_of final] in *.
  - lia.
  - destruct (Hagain s' eq_refl) as [Hset' Hlt]. apply IH; [done | lia].
  - cbn [run_count shared]. lia.
Qed.

(** X9. At every stage of a campaign started on the table set up by
    [init], the number of runs made is at most one more than the number
    of flags set in the live records, hence at most twice the number of
    call sites found plus one. *)
Theorem run_count_bound (fuel : nat) (w : world H) :
  let s := final (run_tests fuel w fresh_table) in
  run_count s <= coverage (shared s) + 1 /\
  run_count s <= 2 * record_count (shared s) + 1.
Proof.
  cbv zeta. unfold run_tests.
  pose proof (run_loop_runs w fuel (start fresh_table) settled_start) as Hruns.
  pose proof (run_loop_moves fuel w (start fresh_table) wf_fresh_table) as Hm.
  apply rtc_moves_wf in Hm; [|exact wf_fresh_table].
  apply coverage_le_count in Hm. cbn [fst] in Hm.
  assert (run_count (start fresh_table) <= coverage (shared (start fresh_table)))
    as Hzero by (cbn; lia).
  specialize (Hruns Hzero). lia.
Qed.

End Stopping.

Lemma small_campaign_stops_unchanged_witness :
  exists s,
    run_tests 4 (every single_site) fresh_table = Exited EXIT_SUCCESS s /\
    record_count (shared s) <= 12 /\
    exists n before,
      n < 4 /\
      run_tests n (every single_site) fresh_table = StillRunning before /\
      run_tests (S n) (every single_site) fresh_table
        = Exited EXIT_SUCCESS s /\
      run_count s = S (run_count before) /\
      live (shared s) = live (shared before).
Proof.
  eexists. split; [vm_compute; reflexivity|].
  match goal with
  | |- record_count (shared ?s) <= 12 /\ _ =>
      assert (run_tests 4 (every single_site) fresh_table
              = Exited EXIT_SUCCESS s) as Hrun by (vm_compute; reflexivity);
      assert (record_count (shared s) <= 12) as Hsmall by (vm_compute; lia);
      split; [exact Hsmall|];
      exact (small_campaign_stops_unchanged 4 (every single_site) s
               Hrun Hsmall)
  end.
Defined.

(** ** Invocations *)

Section Invocations.
Context {H : Type} {RA : RealAllocator H}.




End Invocations.




(** ** Crash artifacts *)

Lemma archives_report d :
  archives (report d) = [] /\ signaled_runs (report d) = [].
Proof.
  unfold archives, signaled_runs, report. simpl.
  induction (live d) as [|r l [IHa IHs]]; [done|]. simpl. by split.
Qed.

Section Artifacts.
Context {H : Type} {RA : RealAllocator H}.

(** What one iteration adds to the parent's output: nothing to archive,
    or the line for a signal and the [link] to the name of this run. *)
Lemma run_once_out (w : world H) s :
  exists tail,
    out (driver_of (run_once w s)) = out s ++ tail /\
    ((archives tail = [] /\ signaled_runs tail = []) \/
     (archives tail = [CoreRun (S (run_count s))] /\
      signaled_runs tail = [S (run_count s)])).
Proof.
  unfold run_once. destruct (w (S (run_count s))) as [|p h].
  - eexists. cbn [driver_of out]. rewrite <- app_assoc. split; [done|].
    left. by split.
  - destruct (execute p _) as [ws st].
    destruct ws as [code | sig | raw];
      try (destruct (tests_complete _ _) as [done tc];
           destruct (done =? 0)%Z);
      eexists; cbn [driver_of out]; rewrite <- app_assoc;
      (split; [done|]); (by left; split) || (by right; split).
Qed.

Lemma run_once_archives (w : world H) s :
  let o := out s in
  let o' := out (driver_of (run_once w s)) in
  archives o = CoreRun <$> signaled_runs o ->
  Forall (fun n => n <= run_count s) (signaled_runs o) ->
  NoDup (signaled_runs o) ->
  archives o' = CoreRun <$> signaled_runs o' /\
  Forall (fun n => n <= S (run_count s)) (signaled_runs o') /\
  NoDup (signaled_runs o').
Proof.
  cbv zeta. intros Harch Hle Hnd.
  destruct (run_once_out w s) as (tail & -> & [[Ha Hs] | [Ha Hs]]);
    unfold archives, signaled_runs in *; rewrite !omap_app, Ha, Hs, Harch.
  - rewrite !app_nil_r. repeat split; [|done].
    eapply Forall_impl; [exact Hle|]. simpl. lia.
  - rewrite fmap_app. split; [done|]. split.
    + apply Forall_app. split; [|by apply Forall_singleton].
      eapply Forall_impl; [exact Hle|]. simpl. lia.
    + apply NoDup_app. split; [done|]. split; [|apply NoDup_singleton].
      intros n Hn ->%list_elem_of_singleton.
      rewrite Forall_forall in Hle. specialize (Hle _ Hn). simpl in Hle. lia.
Qed.

Lemma run_loop_archives (w : world H) fuel s :
  let o := out s in
  let o' := out (final (run_loop fuel w s)) in
  archives o = CoreRun <$> signaled_runs o ->
  Forall (fun n => n <= run_count s) (signaled_runs o) ->
  NoDup (signaled_runs o) ->
  archives o' = CoreRun <$> signaled_runs o' /\ NoDup (signaled_runs o').
Proof.
  cbv zeta. revert s. induction fuel as [|fuel IH]; intros s Harch Hle Hnd.
  - by split.
  - simpl.
    destruct (run_once_archives w s Harch Hle Hnd) as (Harch' & Hle' & Hnd').
    pose proof (run_once_count w s) as Hn.
    destruct (run_once w s) as [s' | s' | s']; cbn [driver_of final out] in *.
    + by split.
    + rewrite <- Hn in Hle'. by apply IH.
    + destruct (archives_report (shared s')) as [Ha Hs].
      unfold archives, signaled_runs in *.
      rewrite !omap_app, Ha, Hs, !app_nil_r. by split.
Qed.

(** X13. In the output of the parent, at every stage of a campaign, the
    destinations of the [link] calls are, in order, the names
    [./core-run<n>] for the runs [n] reported as terminated by a signal;
    no run is reported twice, so no two [link] calls have the same
    destination. *)
Theorem crash_archives (fuel : nat) (w : world H) (d : Data) :
  let o := out (final (run_tests fuel w d)) in
  archives o = CoreRun <$> signaled_runs o /\
  NoDup (signaled_runs o) /\ NoDup (archives o).
Proof.
  cbv zeta. unfold run_tests.
  destruct (run_loop_archives w fuel (start d)) as [Harch Hnd];
    [done | constructor | constructor |].
  split; [done|]. split; [done|]. rewrite Harch.
  apply NoDup_fmap_2; [|done]. by intros n m [= ->].
Qed.

End Artifacts.

(** ** A full table *)

Lemma callers_frozen d d' :
  wf d -> wf d' -> table_le d d' ->
  record_count d = max_records d ->
  record_count d' = record_count d /\ callers d' = callers d.
Proof.
  intros Hwf Hwf' (Hmax & Hcount & Hrec) Hfull.
  assert (record_count d' = record_count d) as Heq
    by (destruct Hwf' as [Hle _]; lia).
  split; [exact Heq|]. apply list_eq. intros i. unfold callers.
  rewrite !list_lookup_fmap.
  destruct (live d !! i) as [r|] eqn:Hi.
  - destruct (Hrec _ _ Hi) as (r' & Hi' & Hc & _). rewrite Hi'. simpl.
    by rewrite Hc.
  - apply lookup_ge_None in Hi. rewrite live_length in Hi by done.
    assert (live d' !! i = None) as ->; [|done].
    apply lookup_ge_None. rewrite live_length by done. lia.
Qed.

Section Full.
Context {H : Type} {RA : RealAllocator H}.

(** X14. Once the table is full, its set of call sites is final: after
    any run of a target and after any number of iterations of the driver
    loop the table has the same number of records, for the same callers
    in the same order.  Only their flags can still change. *)
Theorem full_table_frozen (d : Data) :
  wf d -> record_count d = max_records d ->
  (forall p (st : State H), data st = d ->
     let d' := data (execute p st).2 in
     record_count d' = record_count d /\ callers d' = callers d) /\
  (forall fuel (w : world H) s, shared s = d ->
     let d' := shared (final (run_loop fuel w s)) in
     record_count d' = record_count d /\ callers d' = callers d).
Proof.
  intros Hwf Hfull. split.
  - intros p st <-. cbv zeta.
    pose proof (execute_moves p st Hwf) as Hm.
    apply callers_frozen; [done | | | done].
    + exact (rtc_moves_wf _ _ Hm Hwf).
    + exact (rtc_moves_table_le _ _ Hm).
  - intros fuel w s <-. cbv zeta.
    pose proof (run_loop_moves fuel w s Hwf) as Hm.
    apply callers_frozen; [done | | | done].
    + exact (rtc_moves_wf _ _ Hm Hwf).
    + exact (rtc_moves_table_le _ _ Hm).
Qed.

End Full.

Lemma full_table_frozen_witness :
  wf packed_table /\ record_count packed_table = max_records packed_table /\
  let d' := data (execute greedy (process packed_table)).2 in
  record_count d' = record_count packed_table /\
  callers d' = callers packed_table.
Proof.
  assert (wf packed_table) as Hwf by (split; simpl; lia).
  split; [exact Hwf|]. split; [reflexivity|].
  exact (proj1 (full_table_frozen (H:=Z) packed_table Hwf eq_refl)
           greedy (process packed_table) eq_refl).
Defined.
